(** * squarehole: request router, streaming pump and suspense registry

    A shallow embedding of [src/router.mts], [src/runtime/node.mts] and
    [src/runtime/suspense.tsx], followed by the properties of the
    specification that concern them.

    Conventions of the embedding:
    - thrown values and rejected promises are explicit ([thrown], [result],
      [settled]);
    - wall-clock time is a natural number; a promise records the instant at
      which it settles (promises that never settle are not represented);
    - module-level mutable state ([suspended]) and the platform objects that
      the code mutates (the writer of the [TransformStream]) are threaded as
      explicit state. *)

From Stdlib Require Import List String Arith ZArith Lia Bool Permutation Sorted.
Import ListNotations.
Local Open Scope string_scope.
Local Open Scope list_scope.
Local Open Scope nat_scope.

(* ================================================================== *)
(** ** Platform objects used by the sources *)
(* ================================================================== *)

Module Platform.

(** [Headers]: the header list, in the order entries were appended.
    [append] never replaces an entry. Names are kept as they are stored
    (the platform stores and compares them in lower case). *)
Definition Headers := list (string * string).

Definition append (h : Headers) (name value : string) : Headers :=
  h ++ [(name, value)].

Definition has (h : Headers) (name : string) : bool :=
  existsb (fun kv => String.eqb (fst kv) name) h.

(** The writable/readable pair of a [TransformStream], seen from the
    client: the chunks that went through and the way the stream ended. *)
Inductive channel_state := Writable | Closed | Errored.

Record Channel := { delivered : list string; state : channel_state }.

Inductive Body :=
| BodyNull
| BodyText (s : string)
| BodyStream (c : Channel).

Record Response := { status : nat; header_list : Headers; body : Body }.

Record Request := { url : string; method : string; request_headers : Headers }.

(** What a [throw] (or a rejected promise) carries; the router only tells
    [Response] and [Error] apart. *)
Inductive thrown :=
| ThrownResponse (r : Response)
| ThrownError (message : string)
| ThrownOther (v : string).

Inductive result (A : Type) :=
| Ok (a : A)
| Throw (e : thrown).
Arguments Ok {A} a.
Arguments Throw {A} e.

Definition bind {A B} (r : result A) (k : A -> result B) : result B :=
  match r with
  | Ok a => k a
  | Throw e => Throw e
  end.

Inductive settled (A : Type) :=
| Fulfilled (a : A)
| Rejected (e : thrown).
Arguments Fulfilled {A} a.
Arguments Rejected {A} e.

Record Promise (A : Type) := { settles_at : nat; outcome : settled A }.
Arguments settles_at {A} p.
Arguments outcome {A} p.

(** The three ways a call of user code ends: a plain value, a promise
    (every [async] function), or a synchronous throw. *)
Inductive call_result (A : Type) :=
| Returns (a : A)
| ReturnsPromise (p : Promise A)
| Throws (e : thrown).
Arguments Returns {A} a.
Arguments ReturnsPromise {A} p.
Arguments Throws {A} e.

(** [await f(x)] *)
Definition await {A} (c : call_result A) : result A :=
  match c with
  | Returns a => Ok a
  | ReturnsPromise p =>
      match outcome p with
      | Fulfilled a => Ok a
      | Rejected e => Throw e
      end
  | Throws e => Throw e
  end.

(** [array.map(f)] over calls that may throw synchronously: the first
    throw, in index order, leaves the [map]. What remains is the array
    [Promise.all] receives: plain values and promises. *)
Fixpoint map_calls {A} (cs : list (call_result A)) : result (list (A + Promise A)) :=
  match cs with
  | [] => Ok []
  | c :: rest =>
      match c with
      | Throws e => Throw e
      | Returns a => bind (map_calls rest) (fun xs => Ok (inl a :: xs))
      | ReturnsPromise p => bind (map_calls rest) (fun xs => Ok (inr p :: xs))
      end
  end.

(** The earliest rejection among the items; on equal instants the lower
    index is kept. *)
Fixpoint first_rejection {A} (items : list (A + Promise A)) : option (nat * thrown) :=
  match items with
  | [] => None
  | inl _ :: rest => first_rejection rest
  | inr p :: rest =>
      match outcome p with
      | Fulfilled _ => first_rejection rest
      | Rejected e =>
          match first_rejection rest with
          | Some (t, e') => if t <? settles_at p then Some (t, e') else Some (settles_at p, e)
          | None => Some (settles_at p, e)
          end
      end
  end.

Fixpoint fulfilled_values {A} (items : list (A + Promise A)) : list A :=
  match items with
  | [] => []
  | inl a :: rest => a :: fulfilled_values rest
  | inr p :: rest =>
      match outcome p with
      | Fulfilled a => a :: fulfilled_values rest
      | Rejected _ => fulfilled_values rest
      end
  end.

(** [await Promise.all(items)]: rejects with the first rejection, otherwise
    the values in index order. *)
Definition Promise_all {A} (items : list (A + Promise A)) : result (list A) :=
  match first_rejection items with
  | Some (_, e) => Throw e
  | None => Ok (fulfilled_values items)
  end.

(** [Promise.race(items)], called at instant [now] on promises in
    iteration order: a promise that has already settled wins, the first
    one in iteration order if there are several; otherwise the promise
    that settles first wins (the earlier one in iteration order on equal
    instants) and the caller resumes at that instant. [None] on no
    promises at all, where the race never settles. *)
Definition settled_by {A} (now : nat) (p : Promise A) : bool :=
  settles_at p <=? now.

Fixpoint earliest {A} (ps : list (Promise A)) : option (Promise A) :=
  match ps with
  | [] => None
  | p :: rest =>
      match earliest rest with
      | Some q => if settles_at q <? settles_at p then Some q else Some p
      | None => Some p
      end
  end.

Definition Promise_race {A} (now : nat) (ps : list (Promise A)) : option (Promise A * nat) :=
  match find (settled_by now) ps with
  | Some p => Some (p, now)
  | None =>
      match earliest ps with
      | Some p => Some (p, settles_at p)
      | None => None
      end
  end.

End Platform.

(* ================================================================== *)
(** ** runtime/node.mts: [Html] *)
(* ================================================================== *)

Module Node.
Import Platform.

(** [Html.text] is an async generator of strings, consumed once. It is
    represented by what it yields and by how it ends: normally, or by
    throwing. *)
Record Html := { text : list string; failure : option thrown }.

Inductive rendered :=
| RHtml (h : Html)
| RString (s : string).

Definition into_string (s : string) : Html :=
  {| text := [s]; failure := None |}.

(** [into(promise)]: awaits inside the generator, so a rejection surfaces
    when the generator is iterated, not when [into] is called. *)
Definition into_promise (p : Promise rendered) : Html :=
  match outcome p with
  | Fulfilled (RString s) => {| text := [s]; failure := None |}
  | Fulfilled (RHtml h) => h
  | Rejected e => {| text := []; failure := Some e |}
  end.

(** [toPromise]: concatenates the chunks; rejects if the generator throws. *)
Definition toPromise (h : Html) : result string :=
  match failure h with
  | None => Ok (String.concat "" (text h))
  | Some e => Throw e
  end.

(** What a reader of [toReadableStream()] gets: chunks, then either
    [done] or a rejected [read()]. *)
Record Reader := { queued : list string; read_error : option thrown }.

(** [toReadableStream]: [start] iterates the generator and enqueues every
    chunk; a throw ends in [controller.error], which drops the chunks that
    were enqueued but not yet read. [consumed] is the number of chunks the
    reader had taken by then. *)
Definition toReadableStream (h : Html) (consumed : nat) : Reader :=
  match failure h with
  | None => {| queued := text h; read_error := None |}
  | Some e => {| queued := firstn consumed (text h); read_error := Some e |}
  end.

End Node.

(* ================================================================== *)
(** ** router.mts: the pump [startStreaming] *)
(* ================================================================== *)

Module Pump.
Import Platform Node.

(** The client side of the [TransformStream]: it takes every chunk, or
    goes away after [n] chunks, after which writes reject with [reason]. *)
Inductive transport :=
| Healthy
| FailsAfter (n : nat) (reason : thrown).

(** Calls made on the [WritableStreamDefaultWriter]. *)
Inductive writer_op :=
| OpWrite (chunk : string)
| OpClose
| OpAbort (reason : thrown).

Record Writer := {
  channel : Channel;
  client : transport;
  ops : list writer_op
}.

Definition is_close (o : writer_op) : bool :=
  match o with OpClose => true | _ => false end.

Definition is_abort (o : writer_op) : bool :=
  match o with OpAbort _ => true | _ => false end.

Definition getWriter (t : transport) : Writer :=
  {| channel := {| delivered := []; state := Writable |}; client := t; ops := [] |}.

Definition stream_error : thrown := ThrownError "TypeError: stream is not writable".

(** [await writer.write(chunk)]. On an errored stream the platform
    rejects with the error the stream holds. *)
Definition write (w : Writer) (chunk : string) : Writer * result unit :=
  let log := ops w ++ [OpWrite chunk] in
  match state (channel w) with
  | Writable =>
      match client w with
      | Healthy =>
          ({| channel := {| delivered := delivered (channel w) ++ [chunk]; state := Writable |};
              client := Healthy; ops := log |}, Ok tt)
      | FailsAfter (S n) reason =>
          ({| channel := {| delivered := delivered (channel w) ++ [chunk]; state := Writable |};
              client := FailsAfter n reason; ops := log |}, Ok tt)
      | FailsAfter 0 reason =>
          ({| channel := {| delivered := delivered (channel w); state := Errored |};
              client := FailsAfter 0 reason; ops := log |}, Throw reason)
      end
  | Closed => ({| channel := channel w; client := client w; ops := log |}, Throw stream_error)
  | Errored =>
      ({| channel := channel w; client := client w; ops := log |},
       match client w with FailsAfter _ reason => Throw reason | Healthy => Throw stream_error end)
  end.

(** [await writer.close()]. On a stream that is closed or errored the
    platform rejects with a [TypeError] of its own, not with the error the
    stream holds. *)
Definition close (w : Writer) : Writer * result unit :=
  let log := ops w ++ [OpClose] in
  match state (channel w) with
  | Writable =>
      ({| channel := {| delivered := delivered (channel w); state := Closed |};
          client := client w; ops := log |}, Ok tt)
  | Closed => ({| channel := channel w; client := client w; ops := log |}, Throw stream_error)
  | Errored => ({| channel := channel w; client := client w; ops := log |}, Throw stream_error)
  end.

Definition preamble : string := "<!doctype html>".

(** The [while (true)] loop: read, stop on [done], write the chunk. *)
Fixpoint forward (chunks : list string) (ending : option thrown) (w : Writer)
  : Writer * result unit :=
  match chunks with
  | [] =>
      match ending with
      | None => (w, Ok tt)
      | Some e => (w, Throw e)
      end
  | value :: rest =>
      match write w value with
      | (w', Ok _) => forward rest ending w'
      | (w', Throw e) => (w', Throw e)
      end
  end.

(** The finished pump: the writer as it was left, and how the promise
    handed to [waitUntil] settled. *)
Record pump_run := { writer : Writer; completion : result unit }.

Definition startStreaming (reader : Reader) (w : Writer) : pump_run :=
  (* try *)
  let attempt :=
    match write w preamble with
    | (w1, Ok _) => forward (queued reader) (read_error reader) w1
    | (w1, Throw e) => (w1, Throw e)
    end in
  (* finally: reader.releaseLock(); await writer.close() *)
  match close (fst attempt) with
  | (w2, Ok _) => {| writer := w2; completion := snd attempt |}
  | (w2, Throw e) => {| writer := w2; completion := Throw e |}
  end.

End Pump.

(* ================================================================== *)
(** ** router.mts: [Router], [handle], [dataResponse], [routeResponse],
       [mergeFragmentHeaders] *)
(* ================================================================== *)

Module Router.
Import Platform Node Pump.

Section WithData.

(** What loaders and actions compute, and [JSON.stringify] on it as
    [Response.json] uses it ([None]: it throws). *)
Variable data : Type.
Variable stringify : data -> option string.

Inductive value :=
| Undefined
| Plain (d : data)
| Resp (r : Response).

(** [ctx]; the [context] pair [Env, ExecutionContext] is only used for
    [waitUntil], which is recorded in [served]. *)
Record ctx := { request : Request; params : list (string * string) }.

Definition loader_fn := ctx -> call_result value.
Definition action_fn := ctx -> call_result value.

(** [renderer]: called with [{ loaderData, children }]. *)
Definition renderer := value -> Html -> call_result rendered.

(** [headers]: called with [{ ...ctx, loaderData }]; the result is [None]
    when falsy, otherwise the entries in iteration order, a value being
    [None] when it is [null] or [undefined]. *)
Definition headers_fn := ctx -> value -> call_result (option (list (string * option string))).

(** [mod] ([mod] is reserved for the remainder in Rocq). *)
Record Mod := {
  loader : option loader_fn;
  action : option action_fn;
  default : option renderer;
  headers : option headers_fn
}.

Record fragment := { id : string; frag_mod : Mod; param_names : list string }.

(** [URLPattern]: [exec] gives [match.pathname.groups] on a match. *)
Record URLPattern := { exec : string -> option (list (string * string)) }.

Definition route := (URLPattern * list fragment)%type.

(** The [for (const [pattern, frags] of routes)] loop with its [break]. *)
Fixpoint find_route (routes : list route) (urlStr : string)
  : option (list fragment * list (string * string)) :=
  match routes with
  | [] => None
  | (pattern, frags) :: rest =>
      match exec pattern urlStr with
      | Some groups => Some (frags, groups)
      | None => find_route rest urlStr
      end
  end.

(** [Response.json(value)], given what [JSON.stringify] makes of the
    value: a [TypeError] when there is no JSON text. *)
Definition json_error : thrown := ThrownError "TypeError: value is not JSON serializable".

Definition Response_json (encoded : option string) : result Response :=
  match encoded with
  | Some s =>
      Ok {| status := 200;
            header_list := [("content-type", "application/json")];
            body := BodyText s |}
  | None => Throw json_error
  end.

Definition dataResponse (f : ctx -> call_result value) (c : ctx) : result Response :=
  bind (await (f c)) (fun value =>
    match value with
    | Resp r => Ok r
    | Plain d => Response_json (stringify d)
    | Undefined => Response_json None
    end).

(** [fragments.map((fragment) => fragment.mod.loader?.(ctx))] and the
    [Promise.all] around it. *)
Definition call_loaders (fragments : list fragment) (c : ctx) : list (call_result value) :=
  map (fun fragment =>
         match loader (frag_mod fragment) with
         | Some l => l c
         | None => Returns Undefined
         end) fragments.

Definition run_loaders (fragments : list fragment) (c : ctx) : result (list value) :=
  bind (map_calls (call_loaders fragments c)) Promise_all.

(** The inner [for (const [k, v] of ...)] of [mergeFragmentHeaders]. *)
Definition append_entries (hs : Headers) (entries : list (string * option string)) : Headers :=
  fold_left (fun acc kv =>
               match snd kv with
               | Some v => append acc (fst kv) v
               | None => acc
               end) entries hs.

(** [mergeFragmentHeaders], from index [i] on; [fragments] is what is left
    of the array from [i]. *)
Fixpoint merge_from (i : nat) (hs : Headers) (c : ctx)
         (fragments : list fragment) (loaders : list value) : result Headers :=
  match fragments with
  | [] => Ok hs
  | fragment :: rest =>
      match headers (frag_mod fragment) with
      | None => merge_from (S i) hs c rest loaders
      | Some f =>
          bind (await (f c (nth i loaders Undefined))) (fun h =>
            match h with
            | None => merge_from (S i) hs c rest loaders
            | Some entries => merge_from (S i) (append_entries hs entries) c rest loaders
            end)
      end
  end.

Definition mergeFragmentHeaders (hs : Headers) (c : ctx)
           (fragments : list fragment) (loaders : list value) : result Headers :=
  merge_from 0 hs c fragments loaders.

(** The callback of [reduceRight]: [isHtml(res) ? res : into(res)]. *)
Definition render_fragment (frag : fragment) (loaderData : value) (acc : Html) : result Html :=
  match default (frag_mod frag) with
  | None => Ok acc
  | Some Component =>
      match Component loaderData acc with
      | Returns (RHtml h) => Ok h
      | Returns (RString s) => Ok (into_string s)
      | ReturnsPromise p => Ok (into_promise p)
      | Throws e => Throw e
      end
  end.

(** [fragments.reduceRight(..., into(""))], from index [i] on: the last
    fragment is rendered first. *)
Fixpoint compose_from (i : nat) (fragments : list fragment) (loaders : list value) : result Html :=
  match fragments with
  | [] => Ok (into_string "")
  | frag :: rest =>
      bind (compose_from (S i) rest loaders) (fun acc =>
        render_fragment frag (nth i loaders Undefined) acc)
  end.

Definition compose (fragments : list fragment) (loaders : list value) : result Html :=
  compose_from 0 fragments loaders.

(** The world outside one request: how the client takes the body, and how
    far the pump had read when a failing document stream errored. *)
Record environment := { client_of : transport; consumed_of : nat }.

Definition routeResponse (fragments : list fragment) (c : ctx) (env : environment)
  : result (Response * option pump_run) :=
  bind (run_loaders fragments c) (fun loaders =>
  bind (mergeFragmentHeaders [("Content-Type", "text/html")] c fragments loaders) (fun hs =>
  let w := getWriter (client_of env) in
  bind (compose fragments loaders) (fun node =>
  let reader := toReadableStream node (consumed_of env) in
  let run := startStreaming reader w in
  Ok ({| status := 200; header_list := hs; body := BodyStream (channel (writer run)) |},
      Some run)))).

(** What one call of [handle] amounts to: the response, the lines given to
    [console.error], and the pump handed to [waitUntil], if any. *)
Record served := {
  response : Response;
  console : list string;
  waitUntil : option pump_run
}.

(** A response with nothing logged and no pump started. *)
Definition reply (r : Response) : served :=
  {| response := r; console := []; waitUntil := None |}.

Definition not_found : Response := {| status := 404; header_list := []; body := BodyNull |}.
Definition server_error : Response := {| status := 500; header_list := []; body := BodyNull |}.

Definition is_GET (r : Request) : bool := String.eqb (method r) "GET".

Definition leaf_of (fragments : list fragment) : option Mod :=
  option_map frag_mod (nth_error fragments (List.length fragments - 1)).

(** Optional chaining: [leaf?.field]. *)
Definition chain {A} (leaf : option Mod) (field : Mod -> option A) : option A :=
  match leaf with
  | Some m => field m
  | None => None
  end.

(** The body of the [try] block. *)
Definition dispatch (fragments : list fragment) (c : ctx) (env : environment)
  : result (Response * option pump_run) :=
  let leaf := leaf_of fragments in
  let GET := is_GET (request c) in
  match (if GET then chain leaf default else None) with
  | Some _ => routeResponse fragments c env
  | None =>
      match (if GET then chain leaf loader else None) with
      | Some l => bind (dataResponse l c) (fun r => Ok (r, None))
      | None =>
          match (if negb GET then chain leaf action else None) with
          | Some a => bind (dataResponse a c) (fun r => Ok (r, None))
          | None => Ok (not_found, None)
          end
      end
  end.

(** [handle] after the route loop: the [fx-request] slice, then [try] and
    [catch]. *)
Definition serve (frags : list fragment) (groups : list (string * string))
           (req : Request) (env : environment) : served :=
  let fragments := if has (request_headers req) "fx-request" then tl frags else frags in
  let c := {| request := req; params := groups |} in
  match dispatch fragments c env with
  | Ok (r, run) => {| response := r; console := []; waitUntil := run |}
  | Throw (ThrownResponse e) => {| response := e; console := []; waitUntil := None |}
  | Throw (ThrownError message) =>
      {| response := server_error; console := [message]; waitUntil := None |}
  | Throw (ThrownOther _) => {| response := server_error; console := []; waitUntil := None |}
  end.

Definition handle (routes : list route) (req : Request) (env : environment) : served :=
  match find_route routes (url req) with
  | None => {| response := not_found; console := []; waitUntil := None |}
  | Some (frags, groups) => serve frags groups req env
  end.

End WithData.

Arguments Undefined {data}.
Arguments Plain {data} d.
Arguments Resp {data} r.
Arguments loader {data} m.
Arguments action {data} m.
Arguments default {data} m.
Arguments headers {data} m.
Arguments id {data} f.
Arguments frag_mod {data} f.
Arguments param_names {data} f.
Arguments find_route {data} routes urlStr.
Arguments dataResponse {data} stringify f c.
Arguments call_loaders {data} fragments c.
Arguments run_loaders {data} fragments c.
Arguments merge_from {data} i hs c fragments loaders.
Arguments mergeFragmentHeaders {data} hs c fragments loaders.
Arguments render_fragment {data} frag loaderData acc.
Arguments compose_from {data} i fragments loaders.
Arguments compose {data} fragments loaders.
Arguments routeResponse {data} fragments c env.
Arguments leaf_of {data} fragments.
Arguments chain {data A} leaf field.
Arguments dispatch {data} stringify fragments c env.
Arguments serve {data} stringify frags groups req env.
Arguments handle {data} stringify routes req env.

(** The entries a fragment contributes to the merged headers, as the
    specification words it: the non-null entries of its [headers] function
    applied to its own loader result. Stated apart from
    [mergeFragmentHeaders], to compare the two. *)
Definition non_null (entries : list (string * option string)) : Headers :=
  flat_map (fun kv => match snd kv with Some v => [(fst kv, v)] | None => [] end) entries.

Definition contribution {data} (c : ctx) (loaders : list (value data))
           (i : nat) (frag : fragment data) : Headers :=
  match headers (frag_mod frag) with
  | None => []
  | Some f =>
      match await (f c (nth i loaders Undefined)) with
      | Ok (Some entries) => non_null entries
      | _ => []
      end
  end.

Fixpoint contributions_from {data} (c : ctx) (loaders : list (value data))
         (i : nat) (fragments : list (fragment data)) : list Headers :=
  match fragments with
  | [] => []
  | frag :: rest => contribution c loaders i frag :: contributions_from c loaders (S i) rest
  end.

End Router.

(* ================================================================== *)
(** ** runtime/jsx-runtime.mts: [escapeHtml], [sanitize] *)
(* ================================================================== *)

Module Jsx.
Import Ascii Platform Node.

Definition double_quote : Ascii.ascii := Ascii.ascii_of_nat 34.
Definition quote : string := String double_quote EmptyString.

(** The callback of [input.replaceAll(...)] on the five characters of the
    class (ampersand, angle brackets, double quote, apostrophe): what one
    character becomes. *)
Definition escape_char (char : Ascii.ascii) : string :=
  if Ascii.eqb char "&"%char then "&amp;"
  else if Ascii.eqb char "<"%char then "&lt;"
  else if Ascii.eqb char ">"%char then "&gt;"
  else if Ascii.eqb char double_quote then "&quot;"
  else if Ascii.eqb char "'"%char then "&#39;"
  else String char EmptyString.

Fixpoint escapeHtml (input : string) : string :=
  match input with
  | EmptyString => EmptyString
  | String char rest => (escape_char char ++ escapeHtml rest)%string
  end.

(** The characters [escapeHtml] replaces. *)
Definition special (char : Ascii.ascii) : bool :=
  Ascii.eqb char "&"%char || Ascii.eqb char "<"%char || Ascii.eqb char ">"%char
  || Ascii.eqb char double_quote || Ascii.eqb char "'"%char.

Fixpoint occurs (char : Ascii.ascii) (s : string) : bool :=
  match s with
  | EmptyString => false
  | String c rest => Ascii.eqb c char || occurs char rest
  end.

Fixpoint plain (s : string) : bool :=
  match s with
  | EmptyString => true
  | String c rest => negb (special c) && plain rest
  end.

(** A prop value, as [jsx] and [sanitize] tell values apart; a number is
    given by its [toString()], an object with an [__html] key by the
    value under that key ([None]: undefined). *)
Inductive prop :=
| PString (s : string)
| PNull
| PUndefined
| PBool (b : bool)
| PNumber (shown : string)
| PInnerHtml (html : option string)
| PObject.

(** [value.replaceAll(...)] of every double quote by [&quot;]. *)
Fixpoint replace_quotes (value : string) : string :=
  match value with
  | EmptyString => EmptyString
  | String c rest =>
      if Ascii.eqb c double_quote then ("&quot;" ++ replace_quotes rest)%string
      else String c (replace_quotes rest)
  end.

(** [sanitize]: [None] is [undefined], also for a value no branch takes. *)
Definition sanitize (value : prop) : option string :=
  match value with
  | PString s => Some (replace_quotes s)
  | PNull | PUndefined | PBool false => None
  | PBool true => Some "true"
  | PNumber shown => Some shown
  | PInnerHtml _ | PObject => None
  end.

(** [voidElements] *)
Definition voidElements : list string :=
  ["area"; "base"; "br"; "col"; "embed"; "hr"; "img"; "input"; "link"; "meta";
   "param"; "source"; "track"; "wbr"].

Definition is_void (tag : string) : bool := existsb (String.eqb tag) voidElements.

Section Attributes.

(** [sanitized.split(...)] on runs of white space, as the platform does it. *)
Variable split_whitespace : string -> list string.

Definition normalize_class (sanitized : string) : string :=
  String.concat " " (filter (fun x => negb (String.eqb x EmptyString))
                            (split_whitespace sanitized)).

(** The [for (const key in props)] loop of [jsx]: [props] in enumeration
    order; the result is [attrs] and [dangerousHtml]. *)
Fixpoint scan_props (props : list (string * prop)) (attrs : string)
         (dangerousHtml : option string) : string * option string :=
  match props with
  | [] => (attrs, dangerousHtml)
  | (key, value) :: rest =>
      match (if String.eqb key "dangerouslySetInnerHTML"
             then match value with PInnerHtml html => Some html | _ => None end
             else None) with
      | Some html => scan_props rest attrs html
      | None =>
          match sanitize value with
          | None => scan_props rest attrs dangerousHtml
          | Some sanitized =>
              let sanitized :=
                if String.eqb key "class" then normalize_class sanitized else sanitized in
              scan_props rest
                (attrs ++ " " ++ key ++ "=" ++ quote ++ sanitized
                       ++ quote ++ " ")%string
                dangerousHtml
          end
      end
  end.

End Attributes.

(** What [processChild] tells apart. An [Html] value is its generator,
    an object with an identity [g]: a generator yields only once. The
    generator of an element made by [jsx] runs [processChild] on the
    element's children when it is consumed; any other generator is given
    by what it yields and how it ends. *)
#[warnings="-register-all"]
Inductive child :=
| Nothing
| Awaited (resolved : child)
| Rejecting (e : thrown)
| Markup (g : nat) (body : generator)
| Items (cs : list child)
| Calling (returned : child)
| CallThrows (e : thrown)
| Shown (text : string)
with generator :=
| Chunks (text : list string) (failure : option thrown)
| Element (tag attrs : string) (dangerousHtml : option string) (children : child).

Definition spent_of (g : nat) (spent : list nat) : bool := existsb (Nat.eqb g) spent.

(** [processChild] and the generator of [jsx]. [spent] lists the
    generators consumed so far; the result is what is yielded, the value
    thrown if any, and the generators consumed then. *)
Fixpoint processChild (c : child) (spent : list nat) {struct c}
  : list string * option thrown * list nat :=
  match c with
  | Nothing => ([], None, spent)
  | Awaited resolved => processChild resolved spent
  | Rejecting e => ([], Some e, spent)
  | Markup g body =>
      if spent_of g spent then ([], None, spent) else generate body (g :: spent)
  | Items cs =>
      (fix each (cs : list child) (spent : list nat) {struct cs} :=
         match cs with
         | [] => ([], None, spent)
         | c :: rest =>
             match processChild c spent with
             | (yielded, Some e, spent') => (yielded, Some e, spent')
             | (yielded, None, spent') =>
                 match each rest spent' with
                 | (more, ending, spent'') => (yielded ++ more, ending, spent'')
                 end
             end
         end) cs spent
  | Calling returned => processChild returned spent
  | CallThrows e => ([], Some e, spent)
  | Shown text => ([escapeHtml text], None, spent)
  end
with generate (body : generator) (spent : list nat) {struct body}
  : list string * option thrown * list nat :=
  match body with
  | Chunks text failure => (text, failure, spent)
  | Element tag attrs dangerousHtml children =>
      let opening :=
        if String.eqb tag EmptyString then [] else [("<" ++ tag ++ attrs ++ ">")%string] in
      let closing :=
        if String.eqb tag EmptyString || is_void tag then []
        else [("</" ++ tag ++ ">")%string] in
      match dangerousHtml with
      | Some html => (opening ++ [html] ++ closing, None, spent)
      | None =>
          match processChild children spent with
          | (yielded, Some e, spent') => (opening ++ yielded, Some e, spent')
          | (yielded, None, spent') => (opening ++ yielded ++ closing, None, spent')
          end
      end
  end.

(** The loop over an array, by its own name. *)
Fixpoint each (cs : list child) (spent : list nat) : list string * option thrown * list nat :=
  match cs with
  | [] => ([], None, spent)
  | c :: rest =>
      match processChild c spent with
      | (yielded, Some e, spent') => (yielded, Some e, spent')
      | (yielded, None, spent') =>
          match each rest spent' with
          | (more, ending, spent'') => (yielded ++ more, ending, spent'')
          end
      end
  end.

(** [jsx(tag, { children, ...props })] for a string [tag]: the [Html]
    value whose generator, a new object [g], is the element's. *)
Definition jsx (split_whitespace : string -> list string) (g : nat)
           (tag : string) (props : list (string * prop)) (children : child) : child :=
  Markup g (Element tag
                    (fst (scan_props split_whitespace props EmptyString None))
                    (snd (scan_props split_whitespace props EmptyString None))
                    children).

(** [Fragment] *)
Definition Fragment (split_whitespace : string -> list string) (g : nat)
           (props : list (string * prop)) (children : child) : child :=
  jsx split_whitespace g EmptyString props children.

(** Children made of text only: no [Html] value, nothing that throws. *)
Fixpoint text_only (c : child) : bool :=
  match c with
  | Nothing | Shown _ => true
  | Awaited c' | Calling c' => text_only c'
  | Items cs => (fix all (cs : list child) := match cs with
                                              | [] => true
                                              | c :: rest => text_only c && all rest
                                              end) cs
  | Rejecting _ | CallThrows _ | Markup _ _ => false
  end.

(** The texts of such children, in reading order. *)
Fixpoint texts (c : child) : list string :=
  match c with
  | Shown text => [text]
  | Awaited c' | Calling c' => texts c'
  | Items cs => (fix all (cs : list child) := match cs with
                                              | [] => []
                                              | c :: rest => texts c ++ all rest
                                              end) cs
  | _ => []
  end.

End Jsx.

(* ================================================================== *)
(** ** runtime/suspense.tsx: [suspended], [Suspense], [Resolve] *)
(* ================================================================== *)

Module Suspense.
Import Platform Node.

Section WithUUID.

(** [crypto.randomUUID()]: the value of the n-th call in this process. *)
Variable randomUUID : nat -> string.

(** The pair [[id, html]] a suspended promise resolves to. *)
Definition resolution := (string * string)%type.

(** [Map<string, Promise<[id, html]>>]: entries in insertion order, one
    per key. *)
Definition Map := list (string * Promise resolution).

Fixpoint set (m : Map) (key : string) (p : Promise resolution) : Map :=
  match m with
  | [] => [(key, p)]
  | (k, q) :: rest =>
      if String.eqb k key then (k, p) :: rest else (k, q) :: set rest key p
  end.

Definition delete (m : Map) (key : string) : Map :=
  filter (fun e => negb (String.eqb (fst e) key)) m.

Definition values (m : Map) : list (Promise resolution) := map snd m.
Definition keys (m : Map) : list string := map fst m.

(** The module state: the one [suspended] map of the process, and how
    many UUIDs have been drawn. *)
Record world := { suspended : Map; drawn : nat }.

(** [children]: an element, or a function returning a promise of one.
    A [<Suspense>] that the children render in their turn is a rendering
    of its own, at the instant at which it is rendered: see [event]. *)
Inductive suspense_children :=
| ChildElement (el : Html)
| ChildFunction (p : Promise Html).

(** [.then(async (el) => [id, await (await el).toPromise()])] *)
Definition resolve_with (id : string) (p : Promise Html) : Promise resolution :=
  {| settles_at := settles_at p;
     outcome :=
       match outcome p with
       | Fulfilled el =>
           match toPromise el with
           | Ok html => Fulfilled (id, html)
           | Throw e => Rejected e
           end
       | Rejected e => Rejected e
       end |}.

Definition quote : string := String (Ascii.ascii_of_nat 34) EmptyString.
Definition newline : string := String (Ascii.ascii_of_nat 10) EmptyString.

(** The first half of [Suspense], rendered at instant [now]: the id is
    drawn, the promise is made and stored in [suspended]. The result is
    the id and the module state left behind. *)
Definition register (now : nat) (children : suspense_children) (w : world)
  : string * world :=
  let id := ("suspense-" ++ randomUUID (drawn w))%string in
  let promise :=
    match children with
    | ChildFunction p => resolve_with id p
    | ChildElement el => resolve_with id {| settles_at := now; outcome := Fulfilled el |}
    end in
  (id, {| suspended := set (suspended w) id promise; drawn := S (drawn w) |}).

(** A props object: its keys in enumeration order (keys that are not
    array indices: insertion order), one entry per key. [assign] is
    [o[key] = value]: it overwrites the value of a key that is there, in
    place, and adds a new key at the end. [spread] is [{ ...o, ...source }]. *)
Fixpoint assign (o : list (string * Jsx.prop)) (key : string) (value : Jsx.prop)
  : list (string * Jsx.prop) :=
  match o with
  | [] => [(key, value)]
  | (k, v) :: rest =>
      if String.eqb k key then (k, value) :: rest else (k, v) :: assign rest key value
  end.

Definition spread (o source : list (string * Jsx.prop)) : list (string * Jsx.prop) :=
  fold_left (fun acc kv => assign acc (fst kv) (snd kv)) source o.

(** [Suspense]: [props] is the rest of the props object, after
    [fallback], [as] and [children] were taken out of it; [As] is [None]
    when no [as] was given. The element returned is
    [jsx(As, { id: id, ...props, children: fallback })], made with the
    generator [g]: the props are spread after the id. *)
Definition Suspense (split_whitespace : string -> list string) (g now : nat)
           (fallback : Jsx.child) (As : option string) (props : list (string * Jsx.prop))
           (children : suspense_children) (w : world) : Jsx.child * world :=
  let As := match As with Some tag => tag | None => "div" end in
  let id := fst (register now children w) in
  (Jsx.jsx split_whitespace g As (spread [("id", Jsx.PString id)] props) fallback,
   snd (register now children w)).

(** One [<template>] and [<resolved-data>] pair. *)
Record patch := { to : string; from : string; element : string }.

Definition patch_markup (p : patch) : string :=
  (newline ++
   "<template id=" ++ quote ++ from p ++ quote ++ ">" ++ element p ++ "</template>" ++
   newline ++
   "<resolved-data to=" ++ quote ++ to p ++ quote ++
   " from=" ++ quote ++ from p ++ quote ++ ">" ++
   newline ++
   "</resolved-data>")%string.

(** The [while (suspended.size > 0)] loop of the generator in [Resolve],
    entered at instant [now] and run to its end with nothing else touching
    the map in between; handing a patch to the consumer takes [lag].
    The result is the patches yielded, the error thrown if the awaited
    race rejected, and the module state left behind; [None] only when
    [fuel] iterations were not enough. *)
Fixpoint drain (fuel now lag : nat) (w : world)
  : option (list patch * option thrown * world) :=
  match suspended w with
  | [] => Some ([], None, w)
  | _ :: _ =>
      match fuel with
      | 0 => None
      | S fuel' =>
          let templateId := randomUUID (drawn w) in
          let w1 := {| suspended := suspended w; drawn := S (drawn w) |} in
          match Promise_race now (values (suspended w1)) with
          | None => None
          | Some (p, resumed) =>
              match outcome p with
              | Rejected e => Some ([], Some e, w1)
              | Fulfilled (id, element) =>
                  let w2 := {| suspended := delete (suspended w1) id; drawn := drawn w1 |} in
                  match drain fuel' (resumed + lag) lag w2 with
                  | Some (ps, ending, w3) =>
                      Some ({| to := id; from := templateId; element := element |} :: ps,
                            ending, w3)
                  | None => None
                  end
              end
          end
      end
  end.

(** [Resolve]: the empty fragment when nothing is suspended at the time
    of the call, otherwise the generator ([true]). *)
Definition Resolve (w : world) : bool :=
  negb (List.length (suspended w) =? 0).

(** Conditions on a map, as boolean checks. [well_keyed]: one entry per
    key, and a fulfilled promise carries the key it is stored under (what
    [Suspense] stores). [pending_after]: nothing has settled by [now].
    [all_fulfil]: no promise rejects. [spaced]: any two entries settle
    more than [lag] apart. *)
Fixpoint distinct (l : list string) : bool :=
  match l with
  | [] => true
  | k :: rest => negb (existsb (String.eqb k) rest) && distinct rest
  end.

Definition own_key (e : string * Promise resolution) : bool :=
  match outcome (snd e) with
  | Fulfilled (id, _) => String.eqb id (fst e)
  | Rejected _ => true
  end.

Definition well_keyed (m : Map) : bool :=
  distinct (keys m) && forallb own_key m.


Definition fulfils {A} (p : Promise A) : bool :=
  match outcome p with Fulfilled _ => true | Rejected _ => false end.

Definition all_fulfil (m : Map) : bool :=
  forallb (fun e => fulfils (snd e)) m.



(** * Several responses over the one module state *)

(** Where the generator returned by one call of [Resolve] stands, as its
    consumer left it: at the loop test (it was just made, or it has
    yielded a patch), inside [await Promise.race(...)] with the template
    id it drew, the promise that wins the race and the instant at which
    the race settles, returned, or ended by the rejection it awaited. *)
Inductive place :=
| AtLoopTest
| AtRace (templateId : string) (winner : Promise resolution) (resumed : nat)
| Returned
| Threw (e : thrown).

Record resolver := { owner : nat; position : place; yielded : list patch }.

(** What the responses in flight do to the module, one synchronous run
    of code per event, in the order in which the event loop runs them:
    - [RenderSuspense]: response [response] renders a [<Suspense>], also
      one nested in the children of another [<Suspense>], at the instant
      those children are rendered;
    - [RenderResolve]: it renders a [<Resolve />], the call of [Resolve]
      with its test of [suspended.size];
    - [Pull g now]: the consumer of generator [g] asks for what comes
      next: the loop test, and on a map that is not empty the draw of the
      template id and the call of [Promise.race] on the values then in
      the map;
    - [Settle g]: the race that generator [g] awaits has settled and [g]
      resumes: [suspended.delete(id)] and the patch is yielded.
    Generators are numbered in the order in which they were made. Instants
    are not required to increase along the events. *)
Inductive event :=
| RenderSuspense (response now : nat) (children : suspense_children)
| RenderResolve (response : nat)
| Pull (g now : nat)
| Settle (g : nat).

Record process := {
  module_state : world;
  declared : list (nat * string);
  emitted : list (nat * patch);
  generators : list resolver
}.

Definition start : process :=
  {| module_state := {| suspended := []; drawn := 0 |};
     declared := []; emitted := []; generators := [] |}.

Fixpoint update {A} (l : list A) (i : nat) (x : A) : list A :=
  match l, i with
  | [], _ => []
  | _ :: rest, 0 => x :: rest
  | y :: rest, S i' => y :: update rest i' x
  end.

Definition step (s : process) (e : event) : process :=
  let w := module_state s in
  match e with
  | RenderSuspense r now children =>
      {| module_state := snd (register now children w);
         declared := declared s ++ [(r, fst (register now children w))];
         emitted := emitted s;
         generators := generators s |}
  | RenderResolve r =>
      if Resolve w then
        {| module_state := w;
           declared := declared s;
           emitted := emitted s;
           generators := generators s
                         ++ [{| owner := r; position := AtLoopTest; yielded := [] |}] |}
      else s
  | Pull g now =>
      match nth_error (generators s) g with
      | Some d =>
          match position d with
          | AtLoopTest =>
              match suspended w with
              | [] =>
                  {| module_state := w;
                     declared := declared s;
                     emitted := emitted s;
                     generators := update (generators s) g
                                     {| owner := owner d; position := Returned;
                                        yielded := yielded d |} |}
              | _ :: _ =>
                  let templateId := randomUUID (drawn w) in
                  match Promise_race now (values (suspended w)) with
                  | Some (p, resumed) =>
                      {| module_state := {| suspended := suspended w; drawn := S (drawn w) |};
                         declared := declared s;
                         emitted := emitted s;
                         generators := update (generators s) g
                                         {| owner := owner d;
                                            position := AtRace templateId p resumed;
                                            yielded := yielded d |} |}
                  | None => s
                  end
              end
          | _ => s
          end
      | None => s
      end
  | Settle g =>
      match nth_error (generators s) g with
      | Some d =>
          match position d with
          | AtRace templateId p _ =>
              match outcome p with
              | Fulfilled (id, element) =>
                  let patch := {| to := id; from := templateId; element := element |} in
                  {| module_state := {| suspended := delete (suspended w) id;
                                        drawn := drawn w |};
                     declared := declared s;
                     emitted := emitted s ++ [(owner d, patch)];
                     generators := update (generators s) g
                                     {| owner := owner d; position := AtLoopTest;
                                        yielded := yielded d ++ [patch] |} |}
              | Rejected e =>
                  {| module_state := w;
                     declared := declared s;
                     emitted := emitted s;
                     generators := update (generators s) g
                                     {| owner := owner d; position := Threw e;
                                        yielded := yielded d |} |}
              end
          | _ => s
          end
      | None => s
      end
  end.

Definition run (events : list event) : process := fold_left step events start.

(** An event that is not of generator [g]. *)
Definition other_than (g : nat) (e : event) : bool :=
  match e with
  | Pull g' _ | Settle g' => negb (g' =? g)
  | RenderSuspense _ _ _ | RenderResolve _ => true
  end.

(** The consumer of generator [g] taking it to its end with no other
    event in between: it pulls at [now], and again [lag] after each race
    has settled. On the module state this is the loop [drain]. *)
Fixpoint consume (fuel g now lag : nat) (s : process) : process :=
  match fuel with
  | 0 => s
  | S fuel' =>
      let s1 := step s (Pull g now) in
      match option_map position (nth_error (generators s1) g) with
      | Some (AtRace _ _ resumed) => consume fuel' g (resumed + lag) lag (step s1 (Settle g))
      | _ => s1
      end
  end.

(** What holds of the module between any two events: the map is well
    keyed, and every key in it was declared by some response. *)
Definition sound (s : process) : Prop :=
  well_keyed (suspended (module_state s)) = true
  /\ forall id, In id (keys (suspended (module_state s))) ->
                exists r, In (r, id) (declared s).

(** Every patch yielded so far, and every patch a generator will yield
    when the race it awaits has settled, targets a declared id. *)
Definition targets_declared (s : process) : Prop :=
  (forall r p, In (r, p) (emitted s) -> exists declarer, In (declarer, to p) (declared s))
  /\ forall d templateId p resumed id html,
       In d (generators s) ->
       position d = AtRace templateId p resumed ->
       outcome p = Fulfilled (id, html) ->
       exists declarer, In (declarer, id) (declared s).

(** Every declared id was made from a UUID drawn so far. *)
Definition numbered (s : process) : Prop :=
  forall r id, In (r, id) (declared s) ->
               exists i, i < drawn (module_state s)
                         /\ id = ("suspense-" ++ randomUUID i)%string.

(** What a generator has yielded: no id twice, every patch in the stream
    of its owner, every id declared and out of the map; and the id it
    will patch next is not among them. *)
Definition once (s : process) : Prop :=
  forall d, In d (generators s) ->
    NoDup (map to (yielded d))
    /\ (forall p, In p (yielded d) -> In (owner d, p) (emitted s))
    /\ (forall id, In id (map to (yielded d)) ->
                   ~ In id (keys (suspended (module_state s)))
                   /\ exists declarer, In (declarer, id) (declared s))
    /\ (forall templateId p resumed id html,
          position d = AtRace templateId p resumed ->
          outcome p = Fulfilled (id, html) ->
          ~ In id (map to (yielded d))).

End WithUUID.

End Suspense.

(* ================================================================== *)
(** ** Concrete applications, requests and stores *)
(* ================================================================== *)

Module Scenarios.
Import Platform Node Pump Router.

(** Loader data is JSON text already; [None] cannot be serialised. *)
Definition json := option string.
Definition to_json (d : json) : option string := d.

Definition literal (u : string) : URLPattern :=
  {| exec := fun urlStr => if String.eqb urlStr u then Some [] else None |}.

(** [/users/:id] on the origin [https://app.test]. *)
Definition users_id : URLPattern :=
  {| exec := fun urlStr =>
       if String.prefix "https://app.test/users/" urlStr
       then Some [("id", String.substring 23 (String.length urlStr - 23) urlStr)]
       else None |}.

(** [<tag>{children}</tag>]: when the children throw, the closing tag is
    never yielded. *)
Definition wrap (open close : string) (children : Html) : Html :=
  match failure children with
  | None => {| text := open :: text children ++ [close]; failure := None |}
  | Some e => {| text := open :: text children; failure := Some e |}
  end.

Definition document : fragment json :=
  {| id := "document";
     frag_mod := {| loader := None; action := None;
                    default := Some (fun _ children => Returns (RHtml (wrap "<html>" "</html>" children)));
                    headers := Some (fun _ _ => Returns (Some [("Set-Cookie", Some "theme=dark");
                                                               ("X-Skip", None)])) |};
     param_names := [] |}.

Definition user_leaf : fragment json :=
  {| id := "users.$id";
     frag_mod := {| loader := Some (fun c => ReturnsPromise
                                     {| settles_at := 4; outcome := Fulfilled (Plain (Some "42")) |});
                    action := None;
                    default := Some (fun loaderData _ => Returns (RString "<p>user</p>"));
                    headers := Some (fun _ _ => Returns (Some [("Set-Cookie", Some "seen=1")])) |};
     param_names := ["id"] |}.

Definition new_leaf : fragment json :=
  {| id := "users.new";
     frag_mod := {| loader := None; action := None;
                    default := Some (fun _ _ => Returns (RString "<form></form>"));
                    headers := None |};
     param_names := [] |}.

Definition api_leaf : fragment json :=
  {| id := "api.hello";
     frag_mod := {| loader := Some (fun _ => Returns (Plain (Some "{}")));
                    action := Some (fun _ => Returns (Plain (Some "[]")));
                    default := None; headers := None |};
     param_names := [] |}.

Definition redirect : Response :=
  {| status := 303; header_list := [("Location", "/login")]; body := BodyNull |}.

(** A leaf whose (async) loader throws a redirect. *)
Definition guarded_leaf : fragment json :=
  {| id := "account";
     frag_mod := {| loader := Some (fun _ => ReturnsPromise
                                     {| settles_at := 2; outcome := Rejected (ThrownResponse redirect) |});
                    action := None;
                    default := Some (fun _ _ => Returns (RString "<p>account</p>"));
                    headers := None |};
     param_names := [] |}.

(** A leaf whose loader throws an [Error]. *)
Definition broken_leaf : fragment json :=
  {| id := "broken";
     frag_mod := {| loader := Some (fun _ => Throws (ThrownError "boom"));
                    action := None;
                    default := Some (fun _ _ => Returns (RString "<p>never</p>"));
                    headers := None |};
     param_names := [] |}.

(** A leaf whose component is an [async] function that throws a redirect. *)
Definition async_guard_leaf : fragment json :=
  {| id := "dashboard";
     frag_mod := {| loader := None; action := None;
                    default := Some (fun _ _ => ReturnsPromise
                                      {| settles_at := 3; outcome := Rejected (ThrownResponse redirect) |});
                    headers := None |};
     param_names := [] |}.

Definition routes : list (route json) :=
  [ (literal "https://app.test/users/new", [document; new_leaf]);
    (users_id, [document; user_leaf]);
    (literal "https://app.test/api/hello", [document; api_leaf]);
    (literal "https://app.test/account", [document; guarded_leaf]);
    (literal "https://app.test/broken", [document; broken_leaf]);
    (literal "https://app.test/dashboard", [document; async_guard_leaf]);
    (literal "https://app.test/", [document]) ].

(** A literal route ahead of the parameter route that also matches it. *)
Definition overlapping : list (route json) :=
  [ (literal "https://app.test/api/hello", [document; api_leaf]);
    (literal "https://app.test/users/new", [document; new_leaf]);
    (users_id, [document; user_leaf]) ].

Definition get (u : string) : Request :=
  {| url := u; method := "GET"; request_headers := [] |}.

Definition post (u : string) : Request :=
  {| url := u; method := "POST"; request_headers := [] |}.

Definition partial (u : string) : Request :=
  {| url := u; method := "GET"; request_headers := [("fx-request", "true")] |}.

Definition calm : environment := {| client_of := Healthy; consumed_of := 0 |}.

(** A document stream that fails after its first chunk. *)
Definition failing_reader : Reader :=
  {| queued := ["<p>"]; read_error := Some (ThrownError "render failed") |}.

(** [crypto.randomUUID()] for the examples: a, b, c, ... *)
Definition uuid (n : nat) : string := String (Ascii.ascii_of_nat (97 + n)) EmptyString.

(** A supply of UUIDs that never repeats: u, ui, uii, ... *)
Fixpoint tally (n : nat) : string :=
  match n with
  | 0 => EmptyString
  | S n' => ("i" ++ tally n')%string
  end.

Definition serial (n : nat) : string := ("u" ++ tally n)%string.

Definition markup (s : string) : Html := into_string s.

Definition after (t : nat) (s : string) : Suspense.suspense_children :=
  Suspense.ChildFunction {| settles_at := t; outcome := Fulfilled (markup s) |}.

Definition failing (t : nat) (message : string) : Suspense.suspense_children :=
  Suspense.ChildFunction {| settles_at := t; outcome := Rejected (ThrownError message) |}.

(** One response declares three subtrees that complete after 30, 10 and
    20 ms, in this order of declaration. *)
Definition three_subtrees : Suspense.world :=
  Suspense.module_state
    (Suspense.run uuid [Suspense.RenderSuspense 1 0 (after 30 "<p>30</p>");
                        Suspense.RenderSuspense 1 0 (after 10 "<p>10</p>");
                        Suspense.RenderSuspense 1 0 (after 20 "<p>20</p>")]).

(** One response declares a subtree that fails after 10 ms and one that
    completes after 20 ms. *)
Definition failing_and_sibling : Suspense.world :=
  Suspense.module_state
    (Suspense.run uuid [Suspense.RenderSuspense 1 0 (failing 10 "fetch failed");
                        Suspense.RenderSuspense 1 0 (after 20 "<p>sibling</p>")]).

(** Response 1 declares a subtree; response 2 renders a [<Resolve />],
    whose generator is pulled and resumes when the race has settled. *)
Definition two_responses : list Suspense.event :=
  [Suspense.RenderSuspense 1 0 (after 10 "<p>slow</p>");
   Suspense.RenderResolve 2;
   Suspense.Pull 0 0;
   Suspense.Settle 0].

End Scenarios.

(* ================================================================== *)
(** ** fs-routes/sort.mts and fs-routes/generate-router.mts *)
(* ================================================================== *)

Module FsRoutes.
Import Ascii.

(** [s.startsWith(prefix)] and [s.endsWith(suffix)] *)
Fixpoint startsWith (s prefix : string) {struct prefix} : bool :=
  match prefix with
  | EmptyString => true
  | String p prefix' =>
      match s with
      | EmptyString => false
      | String c s' => Ascii.eqb c p && startsWith s' prefix'
      end
  end.

Definition endsWith (s suffix : string) : bool :=
  (String.length suffix <=? String.length s)
  && String.eqb (String.substring (String.length s - String.length suffix)
                                  (String.length suffix) s) suffix.

(** [unescapedDotRegex]: a dot that is not preceded by an opening bracket
    and is not followed by a closing bracket with no opening bracket in
    between. [closes rest] is the lookahead: the text after the dot runs
    into a closing bracket first. *)
Fixpoint closes (rest : string) : bool :=
  match rest with
  | EmptyString => false
  | String c rest' =>
      if Ascii.eqb c "]"%char then true
      else if Ascii.eqb c "["%char then false
      else closes rest'
  end.

Definition separates (after_bracket : bool) (c : ascii) (rest : string) : bool :=
  Ascii.eqb c "."%char && negb after_bracket && negb (closes rest).

(** [a.split(unescapedDotRegex)]: the first segment and the ones after
    it; [after_bracket] tells whether the previous character was an
    opening bracket. *)
Fixpoint split_dots (after_bracket : bool) (s : string) : string * list string :=
  match s with
  | EmptyString => (EmptyString, [])
  | String c rest =>
      if separates after_bracket c rest
      then (EmptyString, fst (split_dots false rest) :: snd (split_dots false rest))
      else (String c (fst (split_dots (Ascii.eqb c "["%char) rest)),
            snd (split_dots (Ascii.eqb c "["%char) rest))
  end.

Definition segments (a : string) : list string :=
  fst (split_dots false a) :: snd (split_dots false a).

(** The [for] loop of [bySpecificity], over segment arrays of one length. *)
Fixpoint first_difference (aSegments bSegments : list string) : Z :=
  match aSegments, bSegments with
  | aSegment :: aRest, bSegment :: bRest =>
      if String.eqb aSegment bSegment then first_difference aRest bRest
      else if startsWith aSegment "$" then 1%Z
      else if startsWith bSegment "$" then (-1)%Z
      else first_difference aRest bRest
  | _, _ => 0%Z
  end.

Definition bySpecificity (a b : string) : Z :=
  let aSegments := segments a in
  let bSegments := segments b in
  if List.length aSegments =? List.length bSegments then
    if endsWith a ".$" then 1%Z
    else if endsWith b ".$" then (-1)%Z
    else first_difference aSegments bSegments
  else (Z.of_nat (List.length bSegments) - Z.of_nat (List.length aSegments))%Z.

(** [segment.slice(1, -1)] and [segment.slice(1)] *)
Definition slice_1_minus_1 (s : string) : string :=
  String.substring 1 (String.length s - 2) s.

Definition slice_1 (s : string) : string :=
  String.substring 1 (String.length s - 1) s.

(** The [for (const segment of segments)] loop of
    [generatePatternString], with its [break] at a catch-all. *)
Fixpoint pattern_of (segs : list string) : string :=
  match segs with
  | [] => EmptyString
  | segment :: rest =>
      let isOptional := startsWith segment "(" && endsWith segment ")" in
      let actualSegment := if isOptional then slice_1_minus_1 segment else segment in
      if String.eqb actualSegment "$" then "/*"
      else if startsWith actualSegment "$" then
        ("/:" ++ slice_1 actualSegment ++ (if isOptional then "?" else EmptyString)
              ++ pattern_of rest)%string
      else if isOptional then ("/(" ++ actualSegment ++ ")?" ++ pattern_of rest)%string
      else ("/" ++ actualSegment ++ pattern_of rest)%string
  end.

Definition generatePatternString (routePath : string) : string :=
  let segs := filter (fun value => negb (startsWith value "_")) (segments routePath) in
  match segs with
  | [] => "/"
  | [only] => if String.eqb only "$" then "/*" else pattern_of segs
  | _ => pattern_of segs
  end.

(** A segment that is neither pathless, nor a parameter or catch-all, nor
    optional. *)
Definition literal_segment (segment : string) : Prop :=
  startsWith segment "_" = false
  /\ startsWith segment "$" = false
  /\ startsWith segment "(" = false.

End FsRoutes.

(* ================================================================== *)
(** ** Further concrete fragments and requests *)
(* ================================================================== *)

Module MoreScenarios.
Import Platform Node Pump Router Scenarios.

(** A leaf whose (async) action fails with an [Error]. *)
Definition failing_action_leaf : fragment json :=
  {| id := "orders";
     frag_mod := {| loader := None;
                    action := Some (fun _ => ReturnsPromise
                                     {| settles_at := 1;
                                        outcome := Rejected (ThrownError "db down") |});
                    default := None; headers := None |};
     param_names := [] |}.

(** A leaf whose component throws when called. *)
Definition throwing_component_leaf : fragment json :=
  {| id := "report";
     frag_mod := {| loader := None; action := None;
                    default := Some (fun _ _ => Throws (ThrownError "render"));
                    headers := None |};
     param_names := [] |}.

(** A leaf whose [headers] function throws. *)
Definition throwing_headers_leaf : fragment json :=
  {| id := "export";
     frag_mod := {| loader := None; action := None;
                    default := Some (fun _ _ => Returns (RString "<p>export</p>"));
                    headers := Some (fun _ _ => Throws (ThrownError "headers")) |};
     param_names := [] |}.

Definition orders_routes : list (route json) :=
  [ (literal "https://app.test/orders", [document; failing_action_leaf]) ].

(** A leaf whose loader returns nothing, and whose action returns a value
    that has no JSON text. *)
Definition silent_leaf : fragment json :=
  {| id := "ping";
     frag_mod := {| loader := Some (fun _ => Returns Undefined);
                    action := Some (fun _ => Returns (Plain None));
                    default := None; headers := None |};
     param_names := [] |}.

Definition ping_routes : list (route json) :=
  [ (literal "https://app.test/ping", [document; silent_leaf]) ].

Definition at_users_42 : ctx :=
  {| request := get "https://app.test/users/42"; params := [("id", "42")] |}.

End MoreScenarios.

(* ================================================================== *)
(** ** Properties of the router *)
(* ================================================================== *)

Module RouterFacts.
Import Platform Node Pump Router.

Section Matching.
Context {data : Type}.

Lemma find_route_skips (before : list (route data)) rest urlStr :
  (forall r, In r before -> exec (fst r) urlStr = None) ->
  find_route (before ++ rest) urlStr = find_route rest urlStr.
Proof.
  induction before as [|[pattern frags] before IH]; intros Hnone; simpl.
  - reflexivity.
  - pose proof (Hnone (pattern, frags) (or_introl eq_refl)) as Hp.
    simpl in Hp. rewrite Hp.
    apply IH. intros r Hr. apply Hnone. right. exact Hr.
Qed.

(** C6. Matching is order-sensitive: the earliest pattern of the table
    that matches the URL decides, whatever follows it in the table (later
    patterns may match as well); [handle] then works on that route's
    fragments and on the groups that pattern extracted. *)
Theorem first_match_wins
        (stringify : data -> option string)
        (before after : list (route data)) (pattern : URLPattern)
        (frags : list (fragment data)) (groups : list (string * string))
        (req : Request) (env : environment) :
  (forall r, In r before -> exec (fst r) (url req) = None) ->
  exec pattern (url req) = Some groups ->
  find_route (before ++ (pattern, frags) :: after) (url req) = Some (frags, groups)
  /\ handle stringify (before ++ (pattern, frags) :: after) req env
     = serve stringify frags groups req env.
Proof.
  intros Hbefore Hmatch.
  assert (Hfind : find_route (before ++ (pattern, frags) :: after) (url req)
                  = Some (frags, groups)).
  { rewrite find_route_skips by exact Hbefore. simpl. rewrite Hmatch. reflexivity. }
  split; [exact Hfind|].
  unfold handle. rewrite Hfind. reflexivity.
Qed.

(** C10. A request with the [fx-request] header whose route has a single
    fragment is answered 404: the slice leaves no fragment, hence no leaf
    module, and no branch of the dispatch applies. *)
Theorem partial_request_on_single_fragment
        (stringify : data -> option string)
        (routes : list (route data)) (req : Request) (env : environment)
        (frag : fragment data) (groups : list (string * string)) :
  find_route routes (url req) = Some ([frag], groups) ->
  has (request_headers req) "fx-request" = true ->
  handle stringify routes req env
  = {| response := not_found; console := []; waitUntil := None |}.
Proof.
  intros Hfind Hfx.
  unfold handle. rewrite Hfind.
  unfold serve. rewrite Hfx. simpl.
  unfold dispatch, leaf_of. simpl.
  destruct (is_GET req); reflexivity.
Qed.

End Matching.

Lemma first_match_wins_witness :
  let req := Scenarios.get "https://app.test/users/new" in
  exec (Scenarios.literal "https://app.test/api/hello") (url req) = None
  /\ exec (Scenarios.literal "https://app.test/users/new") (url req) = Some []
  /\ exec Scenarios.users_id (url req) = Some [("id", "new")]
  /\ find_route Scenarios.overlapping (url req)
     = Some ([Scenarios.document; Scenarios.new_leaf], []).
Proof.
  split; [reflexivity|]. split; [reflexivity|]. split; [reflexivity|].
  refine (proj1 (first_match_wins Scenarios.to_json
           [(Scenarios.literal "https://app.test/api/hello",
             [Scenarios.document; Scenarios.api_leaf])]
           [(Scenarios.users_id, [Scenarios.document; Scenarios.user_leaf])]
           (Scenarios.literal "https://app.test/users/new")
           [Scenarios.document; Scenarios.new_leaf] []
           (Scenarios.get "https://app.test/users/new") Scenarios.calm _ _)).
  - intros r [Hr|[]]. subst r. reflexivity.
  - reflexivity.
Defined.

Lemma partial_request_on_single_fragment_witness :
  response (handle Scenarios.to_json Scenarios.routes
              (Scenarios.partial "https://app.test/") Scenarios.calm)
  = not_found.
Proof.
  rewrite (partial_request_on_single_fragment Scenarios.to_json Scenarios.routes
             (Scenarios.partial "https://app.test/") Scenarios.calm
             Scenarios.document []).
  - reflexivity.
  - reflexivity.
  - reflexivity.
Defined.

Section Loaders.
Context {data : Type}.

(** [Promise.all] rejects with a rejection none of the others precedes. *)
Lemma first_rejection_earliest {A} (items : list (A + Promise A)) t e :
  first_rejection items = Some (t, e) ->
  exists p, In (inr p) items /\ outcome p = Rejected e /\ settles_at p = t
            /\ forall q e', In (inr q) items -> outcome q = Rejected e' -> t <= settles_at q.
Proof.
  revert t e. induction items as [|[a|p] items IH]; simpl; intros t e Hfirst.
  - discriminate.
  - destruct (IH t e Hfirst) as (p & Hin & Hrej & Ht & Hleast).
    exists p. repeat split; auto.
    intros q e' [Hq|Hq]; [discriminate|]. apply Hleast. exact Hq.
  - destruct (outcome p) as [a|e0] eqn:Hout.
    + destruct (IH t e Hfirst) as (p' & Hin & Hrej & Ht & Hleast).
      exists p'. repeat split; auto.
      intros q e' [Hq|Hq] Hq'; [injection Hq as <-; congruence|].
      eapply Hleast; eassumption.
    + destruct (first_rejection items) as [[t' e1]|] eqn:Hrest.
      * destruct (IH t' e1 eq_refl) as (p' & Hin & Hrej & Ht & Hleast).
        destruct (t' <? settles_at p) eqn:Hlt; injection Hfirst as <- <-.
        -- apply Nat.ltb_lt in Hlt.
           exists p'. repeat split; auto.
           intros q e' [Hq|Hq] Hq'; [injection Hq as <-; lia|].
           eapply Hleast; eassumption.
        -- apply Nat.ltb_ge in Hlt.
           exists p. repeat split; auto.
           intros q e' [Hq|Hq] Hq'; [injection Hq as <-; lia|].
           pose proof (Hleast q e' Hq Hq'). lia.
      * injection Hfirst as <- <-.
        exists p. repeat split; auto.
        intros q e' [Hq|Hq] Hq'; [injection Hq as <-; lia|].
        exfalso. clear IH. induction items as [|[a|p'] items IH']; simpl in *.
        -- contradiction.
        -- destruct Hq as [Hq|Hq]; [discriminate|]. apply IH'; assumption.
        -- destruct (outcome p') eqn:Hp'.
           ++ destruct Hq as [Hq|Hq]; [injection Hq as <-; congruence|]. apply IH'; assumption.
           ++ destruct (first_rejection items) as [[? ?]|];
                [destruct (_ <? _)|]; discriminate.
Qed.

Lemma awaited_together (calls : list (call_result (value data))) : forall values,
  bind (map_calls calls) Promise_all = Ok values ->
  Forall2 (fun call v => await call = Ok v) calls values.
Proof.
  induction calls as [|call calls IH]; intros values; simpl.
  - unfold Promise_all. simpl. intros [= <-]. constructor.
  - destruct call as [a|p|e]; simpl; [| |discriminate];
      destruct (map_calls calls) as [items|e]; simpl in *; try discriminate;
      unfold Promise_all in *; simpl.
    + destruct (first_rejection items) as [[t e]|]; [discriminate|].
      intros [= <-]. constructor; [reflexivity|apply IH; reflexivity].
    + destruct (outcome p) as [a|e0] eqn:Hout.
      * destruct (first_rejection items) as [[t e]|]; [discriminate|].
        intros [= <-]. constructor; [simpl; rewrite Hout; reflexivity|apply IH; reflexivity].
      * destruct (first_rejection items) as [[t e]|]; [destruct (_ <? _)|]; discriminate.
Qed.

(** The loader results are index-aligned with the chain: slot [i] holds
    what fragment [i]'s loader resolved to, [undefined] without a loader,
    whatever the order in which the loaders settled. *)
Lemma run_loaders_aligned (fragments : list (fragment data)) (c : ctx) loaders :
  run_loaders fragments c = Ok loaders ->
  Forall2 (fun frag v =>
             match loader (frag_mod frag) with
             | Some l => await (l c) = Ok v
             | None => v = Undefined
             end) fragments loaders.
Proof.
  unfold run_loaders, call_loaders. intros Hrun.
  apply awaited_together in Hrun.
  remember (map _ fragments) as calls eqn:Hcalls.
  revert fragments Hcalls.
  induction Hrun as [|call v calls values Hcall Hrest IH]; intros [|frag fragments] Hcalls;
    simpl in Hcalls; try discriminate; constructor.
  - injection Hcalls as -> _.
    destruct (loader (frag_mod frag)); [exact Hcall|].
    simpl in Hcall. injection Hcall as <-. reflexivity.
  - apply IH. injection Hcalls as _ ->. reflexivity.
Qed.

End Loaders.

Section Headers.
Context {data : Type}.

Lemma append_entries_non_null entries : forall hs,
  append_entries hs entries = hs ++ non_null entries.
Proof.
  unfold append_entries, non_null.
  induction entries as [|[k [v|]] entries IH]; intros hs; simpl.
  - rewrite app_nil_r. reflexivity.
  - rewrite IH. unfold append. rewrite <- app_assoc. reflexivity.
  - apply IH.
Qed.

Lemma merge_from_contributions (c : ctx) (loaders : list (value data)) :
  forall fragments i hs,
  (forall k frag f, nth_error fragments k = Some frag ->
                    headers (frag_mod frag) = Some f ->
                    exists h, await (f c (nth (i + k) loaders Undefined)) = Ok h) ->
  merge_from i hs c fragments loaders
  = Ok (hs ++ List.concat (contributions_from c loaders i fragments)).
Proof.
  induction fragments as [|frag rest IH]; intros i hs Hreturns; simpl.
  - rewrite app_nil_r. reflexivity.
  - assert (Hrest : forall k frag' f, nth_error rest k = Some frag' ->
                      headers (frag_mod frag') = Some f ->
                      exists h, await (f c (nth (S i + k) loaders Undefined)) = Ok h).
    { intros k frag' f Hk Hf.
      replace (S i + k) with (i + S k) by lia.
      apply (Hreturns (S k) frag' f); assumption. }
    unfold contribution.
    destruct (headers (frag_mod frag)) as [f|] eqn:Hf.
    + destruct (Hreturns 0 frag f eq_refl Hf) as [h Hh].
      rewrite Nat.add_0_r in Hh. rewrite Hh. simpl.
      destruct h as [entries|].
      * rewrite (IH (S i) _ Hrest), append_entries_non_null, <- app_assoc. reflexivity.
      * apply (IH (S i) _ Hrest).
    + apply (IH (S i) _ Hrest).
Qed.


Lemma nth_error_contributions (c : ctx) (loaders : list (value data)) :
  forall fragments i k frag,
  nth_error fragments k = Some frag ->
  nth_error (contributions_from c loaders i fragments) k
  = Some (contribution c loaders (i + k) frag).
Proof.
  induction fragments as [|f rest IH]; intros i [|k] frag; simpl; try discriminate.
  - intros [= ->]. rewrite Nat.add_0_r. reflexivity.
  - intros Hk. rewrite (IH (S i) k frag Hk). f_equal. f_equal. lia.
Qed.

Lemma concat_keeps_order {A} (x y : A) : forall (ls : list (list A)) i j a b,
  i < j ->
  nth_error ls i = Some a -> nth_error ls j = Some b ->
  In x a -> In y b ->
  exists l1 l2 l3, List.concat ls = l1 ++ x :: l2 ++ y :: l3.
Proof.
  induction ls as [|l ls IH]; intros i j a b Hij Hi Hj Hx Hy.
  - destruct i; discriminate.
  - destruct j as [|j]; [lia|]. simpl in Hj.
    destruct i as [|i]; simpl in Hi.
    + injection Hi as ->.
      destruct (in_split _ _ Hx) as (a1 & a2 & ->).
      destruct (nth_error_split _ _ Hj) as (t1 & t2 & -> & _).
      destruct (in_split _ _ Hy) as (b1 & b2 & ->).
      exists a1, (a2 ++ List.concat t1 ++ b1), (b2 ++ List.concat t2).
      simpl. rewrite concat_app. simpl.
      repeat (rewrite <- ?app_assoc; simpl). reflexivity.
    + destruct (IH i j a b) as (l1 & l2 & l3 & Heq); auto; [lia|].
      exists (l ++ l1), l2, l3. simpl. rewrite Heq, <- app_assoc. reflexivity.
Qed.

(** C7. The merged headers are the initial collection followed by what
    each fragment contributes, in chain order: the non-null entries its
    [headers] function gives for its own loader result. Entries are only
    ever appended, so when two fragments emit the same name both values
    are in the result, the outer fragment's before the inner one's. *)
Theorem merged_headers_append_in_chain_order
        (c : ctx) (fragments : list (fragment data)) (loaders : list (value data))
        (init : Headers) :
  (forall i frag f, nth_error fragments i = Some frag ->
                    headers (frag_mod frag) = Some f ->
                    exists h, await (f c (nth i loaders Undefined)) = Ok h) ->
  exists merged,
    mergeFragmentHeaders init c fragments loaders = Ok merged
    /\ merged = init ++ List.concat (contributions_from c loaders 0 fragments)
    /\ forall i j fi fj name v1 v2,
         i < j ->
         nth_error fragments i = Some fi -> nth_error fragments j = Some fj ->
         In (name, v1) (contribution c loaders i fi) ->
         In (name, v2) (contribution c loaders j fj) ->
         exists l1 l2 l3, merged = l1 ++ (name, v1) :: l2 ++ (name, v2) :: l3.
Proof.
  intros Hreturns.
  exists (init ++ List.concat (contributions_from c loaders 0 fragments)).
  split; [|split; [reflexivity|]].
  - unfold mergeFragmentHeaders. apply merge_from_contributions.
    intros k frag f Hk Hf. simpl. eapply Hreturns; eassumption.
  - intros i j fi fj name v1 v2 Hij Hi Hj H1 H2.
    pose proof (nth_error_contributions c loaders fragments 0 i fi Hi) as Hci.
    pose proof (nth_error_contributions c loaders fragments 0 j fj Hj) as Hcj.
    simpl in Hci, Hcj.
    destruct (concat_keeps_order (name, v1) (name, v2) _ i j _ _ Hij Hci Hcj H1 H2)
      as (l1 & l2 & l3 & Heq).
    exists (init ++ l1), l2, l3. rewrite Heq, <- app_assoc. reflexivity.
Qed.

End Headers.

Lemma merged_headers_append_in_chain_order_witness :
  let c := {| request := Scenarios.get "https://app.test/users/42"; params := [("id", "42")] |} in
  let chain := [Scenarios.document; Scenarios.user_leaf] in
  let loaders := [Undefined; Plain (Some "42")] in
  exists merged,
    mergeFragmentHeaders [("Content-Type", "text/html")] c chain loaders = Ok merged
    /\ merged = [("Content-Type", "text/html");
                 ("Set-Cookie", "theme=dark"); ("Set-Cookie", "seen=1")].
Proof.
  cbv zeta.
  destruct (merged_headers_append_in_chain_order
              {| request := Scenarios.get "https://app.test/users/42"; params := [("id", "42")] |}
              [Scenarios.document; Scenarios.user_leaf]
              [Undefined; Plain (Some "42")]
              [("Content-Type", "text/html")]) as (merged & Hm & Heq & _).
  - intros [|[|[|i]]] frag f Hi Hf; simpl in Hi; try discriminate;
      injection Hi as <-; injection Hf as <-; eexists; reflexivity.
  - exists merged. split; [exact Hm|]. rewrite Heq. reflexivity.
Defined.

Section Dispatch.
Context {data : Type}.
Variable stringify : data -> option string.



(** C5, as the code has it. When what is thrown out of the [try] block is
    a [Response] (thrown by or rejected from the loaders awaited together,
    the leaf's loader or action, a [headers] function, or a component
    throwing while the document is composed), [handle] returns that very
    [Response], logs nothing and starts no pump. *)
Theorem thrown_response_is_returned
        (routes : list (route data)) (req : Request) (env : environment)
        (frags : list (fragment data)) (groups : list (string * string))
        (thrown_response : Response) :
  find_route routes (url req) = Some (frags, groups) ->
  let fragments := if has (request_headers req) "fx-request" then tl frags else frags in
  let c := {| request := req; params := groups |} in
  let leaf := leaf_of fragments in
  (is_GET req = true /\ chain leaf default <> None
   /\ (run_loaders fragments c = Throw (ThrownResponse thrown_response)
       \/ exists loaders,
            run_loaders fragments c = Ok loaders
            /\ (mergeFragmentHeaders [("Content-Type", "text/html")] c fragments loaders
                = Throw (ThrownResponse thrown_response)
                \/ exists hs,
                     mergeFragmentHeaders [("Content-Type", "text/html")] c fragments loaders
                     = Ok hs
                     /\ compose fragments loaders = Throw (ThrownResponse thrown_response))))
  \/ (is_GET req = true /\ chain leaf default = None
      /\ exists l, chain leaf loader = Some l
                   /\ await (l c) = Throw (ThrownResponse thrown_response))
  \/ (is_GET req = false
      /\ exists a, chain leaf action = Some a
                   /\ await (a c) = Throw (ThrownResponse thrown_response)) ->
  handle stringify routes req env = reply thrown_response.
Proof.
  intros Hfind fragments c leaf Hthrown.
  unfold handle. rewrite Hfind. unfold serve. fold fragments. fold c.
  unfold dispatch. fold leaf. simpl request.
  destruct Hthrown as [(HGET & Hdefault & Hdoc) | [(HGET & Hdefault & l & Hl & Hthrow)
                                                  | (HGET & a & Ha & Hthrow)]].
  - rewrite HGET. destruct (chain leaf default) as [Component|]; [|congruence].
    unfold routeResponse.
    destruct Hdoc as [-> | (loaders & -> & [Hm | (hs & Hm & Hc)])]; simpl.
    + reflexivity.
    + rewrite Hm. reflexivity.
    + rewrite Hm. simpl. rewrite Hc. reflexivity.
  - rewrite HGET, Hdefault, Hl. unfold dataResponse. rewrite Hthrow. reflexivity.
  - rewrite HGET. simpl. rewrite Ha. unfold dataResponse. rewrite Hthrow. reflexivity.
Qed.

End Dispatch.


Lemma thrown_response_is_returned_witness :
  let req := Scenarios.get "https://app.test/account" in
  find_route Scenarios.routes (url req)
  = Some ([Scenarios.document; Scenarios.guarded_leaf], [])
  /\ run_loaders [Scenarios.document; Scenarios.guarded_leaf]
                 {| request := req; params := [] |}
     = Throw (ThrownResponse Scenarios.redirect)
  /\ handle Scenarios.to_json Scenarios.routes req Scenarios.calm
     = reply {| status := 303; header_list := [("Location", "/login")]; body := BodyNull |}.
Proof.
  cbv zeta. split; [reflexivity|]. split; [reflexivity|].
  apply (thrown_response_is_returned Scenarios.to_json Scenarios.routes
           (Scenarios.get "https://app.test/account") Scenarios.calm
           [Scenarios.document; Scenarios.guarded_leaf] [] Scenarios.redirect eq_refl).
  left. split; [reflexivity|]. split; [discriminate|]. left. reflexivity.
Defined.


(** A loader that returns [undefined], and an action that returns a value
    without JSON text: [Response.json] throws and the answer is 500. *)
Example value_without_JSON_answered_500 :
  let failed := {| response := {| status := 500; header_list := []; body := BodyNull |};
                   console := ["TypeError: value is not JSON serializable"];
                   waitUntil := None |} in
  handle Scenarios.to_json MoreScenarios.ping_routes
         (Scenarios.get "https://app.test/ping") Scenarios.calm = failed
  /\ handle Scenarios.to_json MoreScenarios.ping_routes
            (Scenarios.post "https://app.test/ping") Scenarios.calm = failed.
Proof. split; reflexivity. Qed.

(** C5 fails as stated: a component that is an [async] function throwing a
    redirect does not make [handle] return the redirect. [handle] answers
    200 and starts the pump; the redirect only rejects the pump. *)
Lemma async_component_redirect_is_streamed :
  let req := Scenarios.get "https://app.test/dashboard" in
  let answer := handle Scenarios.to_json Scenarios.routes req Scenarios.calm in
  (exists Component,
     default (frag_mod Scenarios.async_guard_leaf) = Some Component
     /\ forall loaderData children,
          Component loaderData children
          = ReturnsPromise {| settles_at := 3;
                              outcome := Rejected (ThrownResponse Scenarios.redirect) |})
  /\ status (response answer) = 200
  /\ exists run, waitUntil answer = Some run
                 /\ ops (writer run) = [OpWrite preamble; OpClose]
                 /\ completion run = Throw (ThrownResponse Scenarios.redirect).
Proof.
  cbv zeta. split.
  - eexists. split; [reflexivity|]. intros; reflexivity.
  - split; [reflexivity|]. eexists. split; [reflexivity|]. split; reflexivity.
Qed.

End RouterFacts.



(* ================================================================== *)
(** ** Properties of the pump *)
(* ================================================================== *)

Module PumpFacts.
Import Platform Node Pump.

Lemma write_effect (w : Writer) (chunk : string) :
  ops (fst (write w chunk)) = ops w ++ [OpWrite chunk]
  /\ (delivered (channel (fst (write w chunk))) = delivered (channel w) ++ [chunk]
      \/ (delivered (channel (fst (write w chunk))) = delivered (channel w)
          /\ exists e, snd (write w chunk) = Throw e)).
Proof.
  unfold write.
  destruct (state (channel w)); simpl.
  - destruct (client w) as [|[|n] reason]; simpl; split; auto.
    right. split; [reflexivity|]. eexists; reflexivity.
  - split; [reflexivity|]. right. split; [reflexivity|]. eexists; reflexivity.
  - split; [reflexivity|]. right. split; [reflexivity|].
    destruct (client w); eexists; reflexivity.
Qed.

Lemma close_effect (w : Writer) :
  ops (fst (close w)) = ops w ++ [OpClose]
  /\ delivered (channel (fst (close w))) = delivered (channel w).
Proof.
  unfold close. destruct (state (channel w)); simpl; split; reflexivity.
Qed.

(** The loop writes a prefix of the chunks it is given, in order. *)
Lemma forward_effect (ending : option thrown) : forall chunks w,
  exists attempted unread passed,
    chunks = attempted ++ unread
    /\ ops (fst (forward chunks ending w)) = ops w ++ map OpWrite attempted
    /\ attempted = passed ++ skipn (List.length passed) attempted
    /\ delivered (channel (fst (forward chunks ending w))) = delivered (channel w) ++ passed.
Proof.
  induction chunks as [|value rest IH]; intros w; simpl.
  - exists [], [], []. destruct ending; simpl; rewrite !app_nil_r; auto.
  - destruct (write_effect w value) as [Hops Hdel].
    destruct (write w value) as [w' [[]|e]] eqn:Hw; simpl in Hops, Hdel.
    + destruct Hdel as [Hdel | [_ [e He]]]; [|discriminate].
      destruct (IH w') as (attempted & unread & passed & -> & Ho & Hp & Hd).
      exists (value :: attempted), unread, (value :: passed).
      repeat split.
      * rewrite Ho, Hops, <- app_assoc. reflexivity.
      * simpl. f_equal. exact Hp.
      * rewrite Hd, Hdel, <- app_assoc. reflexivity.
    + simpl. destruct Hdel as [Hdel | [Hdel _]].
      * exists [value], rest, [value]. simpl. auto.
      * exists [value], rest, []. simpl. rewrite app_nil_r. auto.
Qed.

Lemma forward_healthy (ending : option thrown) : forall chunks sent log,
  forward chunks ending
          {| channel := {| delivered := sent; state := Writable |};
             client := Healthy; ops := log |}
  = ({| channel := {| delivered := sent ++ chunks; state := Writable |};
        client := Healthy; ops := log ++ map OpWrite chunks |},
     match ending with None => Ok tt | Some e => Throw e end).
Proof.
  induction chunks as [|value rest IH]; intros sent log; simpl.
  - rewrite !app_nil_r. destruct ending; reflexivity.
  - rewrite IH, <- !app_assoc. reflexivity.
Qed.

Lemma filter_writes (f : writer_op -> bool) (chunks : list string) :
  (forall chunk, f (OpWrite chunk) = false) ->
  filter f (map OpWrite chunks) = [].
Proof.
  intros Hf. induction chunks as [|chunk rest IH]; simpl; [reflexivity|].
  rewrite Hf. exact IH.
Qed.

(** What the pump does to the writer, whatever the document stream and
    the client do. *)
Lemma pump_ops (reader : Reader) (t : transport) :
  exists attempted unread passed,
    queued reader = attempted ++ unread
    /\ ops (writer (startStreaming reader (getWriter t)))
       = OpWrite preamble :: map OpWrite attempted ++ [OpClose]
    /\ attempted = passed ++ skipn (List.length passed) attempted
    /\ (delivered (channel (writer (startStreaming reader (getWriter t)))) = []
        \/ delivered (channel (writer (startStreaming reader (getWriter t))))
           = preamble :: passed).
Proof.
  unfold startStreaming.
  destruct (write_effect (getWriter t) preamble) as [Hops Hdel].
  destruct (write (getWriter t) preamble) as [w1 [[]|e]] eqn:Hw; simpl in Hops, Hdel;
    cbv beta iota zeta; simpl fst; simpl snd.
  - destruct Hdel as [Hdel | [_ [e He]]]; [|discriminate].
    destruct (forward_effect (read_error reader) (queued reader) w1)
      as (attempted & unread & passed & Hq & Ho & Hp & Hd).
    destruct (close_effect (fst (forward (queued reader) (read_error reader) w1)))
      as [Hco Hcd].
    exists attempted, unread, passed.
    destruct (close (fst (forward (queued reader) (read_error reader) w1)))
      as [w2 [[]|e]]; simpl in *;
      (split; [exact Hq|]; split; [rewrite Hco, Ho, Hops; reflexivity|];
       split; [exact Hp|]; right; rewrite Hcd, Hd, Hdel; reflexivity).
  - destruct (close_effect w1) as [Hco Hcd].
    exists [], (queued reader), [].
    destruct (close w1) as [w2 [[]|e']]; simpl in *;
      (split; [reflexivity|]; split; [rewrite Hco, Hops; reflexivity|];
       split; [reflexivity|]).
    + destruct Hdel as [Hdel | [Hdel _]]; [right|left]; rewrite Hcd, Hdel; reflexivity.
    + destruct Hdel as [Hdel | [Hdel _]]; [right|left]; rewrite Hcd, Hdel; reflexivity.
Qed.

(** C9. The first call on the writer is the write of the preamble, and
    what reaches the client is either nothing or the preamble followed by
    chunks of the composed document, in the document's order. So it is
    for the body of every response [routeResponse] returns. *)
Theorem preamble_comes_first
        {data : Type} (fragments : list (Router.fragment data)) (c : Router.ctx)
        (env : Router.environment) (node : Html) (consumed : nat) (t : transport) :
  (let run := startStreaming (toReadableStream node consumed) (getWriter t) in
   (exists rest, ops (writer run) = OpWrite preamble :: rest)
   /\ (delivered (channel (writer run)) = []
       \/ exists passed unread,
            text node = passed ++ unread
            /\ delivered (channel (writer run)) = preamble :: passed))
  /\ match Router.routeResponse fragments c env with
     | Ok (resp, _) =>
         exists ch,
           body resp = BodyStream ch
           /\ (delivered ch = []
               \/ exists loaders document passed unread,
                    Router.compose fragments loaders = Ok document
                    /\ text document = passed ++ unread
                    /\ delivered ch = preamble :: passed)
     | Throw _ => True
     end.
Proof.
  assert (Hpump : forall node consumed t,
            let run := startStreaming (toReadableStream node consumed) (getWriter t) in
            (exists rest, ops (writer run) = OpWrite preamble :: rest)
            /\ (delivered (channel (writer run)) = []
                \/ exists passed unread,
                     text node = passed ++ unread
                     /\ delivered (channel (writer run)) = preamble :: passed)).
  { clear. intros node consumed t run. subst run.
    destruct (pump_ops (toReadableStream node consumed) t)
      as (attempted & unread & passed & Hq & Ho & Hp & Hd).
    split.
    - eexists. exact Ho.
    - destruct Hd as [Hd|Hd]; [left; exact Hd|right].
      exists passed.
      assert (Htext : exists more, text node = queued (toReadableStream node consumed) ++ more).
      { unfold toReadableStream. destruct (failure node); simpl.
        - exists (skipn consumed (text node)). symmetry. apply firstn_skipn.
        - exists []. rewrite app_nil_r. reflexivity. }
      destruct Htext as [more Htext].
      exists (skipn (List.length passed) attempted ++ unread ++ more).
      split; [|exact Hd].
      rewrite Htext, Hq. rewrite Hp at 1. rewrite <- !app_assoc. reflexivity. }
  split; [apply Hpump|].
  unfold Router.routeResponse.
  destruct (Router.run_loaders fragments c) as [loaders|e]; simpl; [|exact I].
  destruct (Router.mergeFragmentHeaders _ c fragments loaders) as [hs|e]; simpl; [|exact I].
  destruct (Router.compose fragments loaders) as [document|e] eqn:Hc; simpl; [|exact I].
  eexists. split; [reflexivity|].
  destruct (Hpump document (Router.consumed_of env) (Router.client_of env))
    as [_ [Hd|(passed & unread & Ht & Hd)]]; [left; exact Hd|right].
  exists loaders, document, passed, unread. auto.
Qed.

(** C2, as the code has it. The pump calls [close] exactly once, as its
    last call on the writer, whether it completed or failed, and never
    calls [abort]. With a client that takes every chunk the channel ends
    [Closed] also when reading the document failed: the client has the
    preamble and the chunks read so far, and the failure only rejects the
    pump's promise. *)
Theorem pump_always_closes (reader : Reader) (t : transport) :
  let run := startStreaming reader (getWriter t) in
  let run_healthy := startStreaming reader (getWriter Healthy) in
  (exists attempted unread,
     queued reader = attempted ++ unread
     /\ ops (writer run) = OpWrite preamble :: map OpWrite attempted ++ [OpClose])
  /\ List.length (filter is_close (ops (writer run))) = 1
  /\ filter is_abort (ops (writer run)) = []
  /\ channel (writer run_healthy)
     = {| delivered := preamble :: queued reader; state := Closed |}
  /\ completion run_healthy
     = match read_error reader with None => Ok tt | Some e => Throw e end.
Proof.
  intros run run_healthy. subst run run_healthy.
  destruct (pump_ops reader t) as (attempted & unread & passed & Hq & Ho & _ & _).
  split; [exists attempted, unread; split; assumption|].
  rewrite Ho. simpl. rewrite !filter_app, !filter_writes by reflexivity. simpl.
  split; [reflexivity|]. split; [reflexivity|].
  unfold startStreaming, getWriter. simpl.
  rewrite forward_healthy. simpl. split; reflexivity.
Qed.

(** C2 fails as stated: the document stream fails after one chunk, and
    the channel is closed normally, not put in the errored state. *)
Lemma read_failure_closes_normally :
  let run := startStreaming Scenarios.failing_reader (getWriter Healthy) in
  read_error Scenarios.failing_reader = Some (ThrownError "render failed")
  /\ ops (writer run) = [OpWrite preamble; OpWrite "<p>"; OpClose]
  /\ channel (writer run) = {| delivered := [preamble; "<p>"]; state := Closed |}
  /\ state (channel (writer run)) <> Errored.
Proof.
  cbv zeta. split; [reflexivity|]. split; [reflexivity|]. split; [reflexivity|].
  discriminate.
Qed.

End PumpFacts.

(* ================================================================== *)
(** ** Properties of the suspense registry *)
(* ================================================================== *)

Module SuspenseFacts.
Import Platform Node Suspense.

(** *** The map *)

Lemma distinct_NoDup (l : list string) : distinct l = true <-> NoDup l.
Proof.
  induction l as [|k rest IH]; simpl.
  - split; [constructor|reflexivity].
  - rewrite andb_true_iff, negb_true_iff, IH. split.
    + intros [Hk Hrest]. constructor; [|exact Hrest].
      intros Hin. assert (existsb (String.eqb k) rest = true) as Hex.
      { apply existsb_exists. exists k. split; [exact Hin|apply String.eqb_refl]. }
      congruence.
    + intros Hnd. inversion Hnd as [|? ? Hk Hrest]; subst. split; [|exact Hrest].
      destruct (existsb (String.eqb k) rest) eqn:Hex; [|reflexivity].
      apply existsb_exists in Hex. destruct Hex as (x & Hin & Heq).
      apply String.eqb_eq in Heq. subst x. contradiction.
Qed.

Lemma well_keyed_spec (m : Map) :
  well_keyed m = true <->
  NoDup (keys m)
  /\ forall k p id html, In (k, p) m -> outcome p = Fulfilled (id, html) -> id = k.
Proof.
  unfold well_keyed. rewrite andb_true_iff, distinct_NoDup, forallb_forall.
  split; intros [Hnd Hown]; (split; [exact Hnd|]).
  - intros k p id html Hin Hout. specialize (Hown (k, p) Hin).
    unfold own_key in Hown. simpl in Hown. rewrite Hout in Hown.
    apply String.eqb_eq. exact Hown.
  - intros [k p] Hin. unfold own_key. simpl.
    destruct (outcome p) as [[id html]|e] eqn:Hout; [|reflexivity].
    apply String.eqb_eq. eapply Hown; eassumption.
Qed.

Lemma in_keys (m : Map) k p : In (k, p) m -> In k (keys m).
Proof. intros Hin. apply (in_map fst) in Hin. exact Hin. Qed.

Lemma in_values (m : Map) p : In p (values m) -> exists k, In (k, p) m.
Proof.
  unfold values. rewrite in_map_iff. intros ([k q] & Heq & Hin).
  simpl in Heq. subst q. exists k. exact Hin.
Qed.

Lemma in_delete (m : Map) id k p : In (k, p) (delete m id) <-> In (k, p) m /\ k <> id.
Proof.
  unfold delete. rewrite filter_In. simpl.
  rewrite negb_true_iff, String.eqb_neq. reflexivity.
Qed.

Lemma delete_absent (m : Map) id : ~ In id (keys m) -> delete m id = m.
Proof.
  induction m as [|[k p] m IH]; simpl; intros Hnot; [reflexivity|].
  destruct (String.eqb k id) eqn:Hk; simpl.
  - apply String.eqb_eq in Hk. tauto.
  - f_equal. apply IH. tauto.
Qed.

(** Deleting the key of an entry takes exactly that entry out. *)
Lemma delete_present (m : Map) id p :
  NoDup (keys m) -> In (id, p) m -> Permutation ((id, p) :: delete m id) m.
Proof.
  induction m as [|[k q] m IH]; simpl; intros Hnd Hin; [contradiction|].
  inversion Hnd as [|? ? Hk Hrest]; subst.
  destruct Hin as [Heq|Hin].
  - injection Heq as -> ->. rewrite String.eqb_refl. simpl.
    rewrite delete_absent by exact Hk. reflexivity.
  - destruct (String.eqb k id) eqn:Hkid; simpl.
    + apply String.eqb_eq in Hkid. subst k. apply in_keys in Hin. contradiction.
    + rewrite perm_swap. constructor. apply IH; assumption.
Qed.

Lemma delete_well_keyed (m : Map) id : well_keyed m = true -> well_keyed (delete m id) = true.
Proof.
  rewrite !well_keyed_spec. intros [Hnd Hown]. split.
  - unfold keys, delete. clear Hown. induction m as [|[k p] m IH]; simpl; [constructor|].
    inversion Hnd as [|? ? Hk Hrest]; subst.
    destruct (String.eqb k id); simpl; [apply IH; exact Hrest|].
    constructor; [|apply IH; exact Hrest].
    rewrite in_map_iff. intros ([k' p'] & Heq & Hin). simpl in Heq. subst k'.
    apply filter_In in Hin. apply Hk. eapply in_keys. apply Hin.
  - intros k p id' html Hin. apply in_delete in Hin. apply Hown. apply Hin.
Qed.

Lemma keys_set (m : Map) key p :
  keys (set m key p) = if existsb (String.eqb key) (keys m) then keys m else keys m ++ [key].
Proof.
  induction m as [|[k q] m IH]; simpl; [reflexivity|].
  rewrite (String.eqb_sym key k).
  destruct (String.eqb k key) eqn:Hk; simpl.
  - reflexivity.
  - rewrite IH. destruct (existsb (String.eqb key) (keys m)); reflexivity.
Qed.

Lemma in_set (m : Map) key p k q :
  In (k, q) (set m key p) -> (k = key /\ q = p) \/ In (k, q) m.
Proof.
  induction m as [|[k' q'] m IH]; simpl.
  - intros [[= <- <-]|[]]. left. auto.
  - destruct (String.eqb k' key) eqn:Hk; simpl.
    + apply String.eqb_eq in Hk. subst k'.
      intros [[= <- <-]|Hin]; [left; auto|right; right; exact Hin].
    + intros [[= <- <-]|Hin]; [right; left; reflexivity|].
      destruct (IH Hin) as [?|?]; [left; assumption|right; right; assumption].
Qed.

Lemma set_well_keyed (m : Map) key p :
  well_keyed m = true ->
  (forall id html, outcome p = Fulfilled (id, html) -> id = key) ->
  well_keyed (set m key p) = true.
Proof.
  rewrite !well_keyed_spec. intros [Hnd Hown] Hp. split.
  - rewrite keys_set.
    destruct (existsb (String.eqb key) (keys m)) eqn:Hex; [exact Hnd|].
    apply NoDup_app; [exact Hnd|constructor; [intros []|constructor]|].
    intros k Hk [Heq|[]]. subst k.
    assert (existsb (String.eqb key) (keys m) = true) as Hex'.
    { apply existsb_exists. exists key. split; [exact Hk|apply String.eqb_refl]. }
    congruence.
  - intros k q id html Hin Hout.
    destruct (in_set _ _ _ _ _ Hin) as [[-> ->]|Hin'].
    + eapply Hp. exact Hout.
    + eapply Hown; eassumption.
Qed.

Lemma resolve_with_own_key id (p : Promise Html) id' html :
  outcome (resolve_with id p) = Fulfilled (id', html) -> id' = id.
Proof.
  unfold resolve_with. simpl.
  destruct (outcome p) as [el|e]; [|discriminate].
  destruct (toPromise el); [|discriminate].
  intros [= <- _]. reflexivity.
Qed.

(** *** [Promise.race] *)

Lemma earliest_in {A} (ps : list (Promise A)) p : earliest ps = Some p -> In p ps.
Proof.
  revert p. induction ps as [|q ps IH]; simpl; intros p; [discriminate|].
  destruct (earliest ps) as [r|].
  - destruct (settles_at r <? settles_at q); intros [= <-]; [right; apply IH|left]; reflexivity.
  - intros [= <-]. left. reflexivity.
Qed.

Lemma earliest_some {A} (p : Promise A) ps : exists q, earliest (p :: ps) = Some q.
Proof.
  simpl. destruct (earliest ps) as [r|]; [|eexists; reflexivity].
  destruct (settles_at r <? settles_at p); eexists; reflexivity.
Qed.


Lemma race_some {A} now (p : Promise A) ps :
  exists q resumed, Promise_race now (p :: ps) = Some (q, resumed).
Proof.
  unfold Promise_race.
  destruct (find (settled_by now) (p :: ps)) as [q|]; [eexists; eexists; reflexivity|].
  destruct (earliest_some p ps) as [q ->]. eexists; eexists; reflexivity.
Qed.

Lemma race_in {A} now (ps : list (Promise A)) q resumed :
  Promise_race now ps = Some (q, resumed) -> In q ps.
Proof.
  unfold Promise_race.
  destruct (find (settled_by now) ps) as [p|] eqn:Hf.
  - intros [= <- _]. apply find_some in Hf. apply Hf.
  - destruct (earliest ps) as [p|] eqn:He; [|discriminate].
    intros [= <- _]. apply earliest_in. exact He.
Qed.


Lemma one_promise_per_key (m : Map) k a b :
  NoDup (keys m) -> In (k, a) m -> In (k, b) m -> a = b.
Proof.
  induction m as [|[k' q] m IH]; simpl; intros Hnd Ha Hb; [contradiction|].
  inversion Hnd as [|? ? Hk Hrest]; subst.
  destruct Ha as [Ha|Ha], Hb as [Hb|Hb].
  - congruence.
  - injection Ha as -> ->. apply in_keys in Hb. contradiction.
  - injection Hb as -> ->. apply in_keys in Ha. contradiction.
  - apply IH; assumption.
Qed.

(** *** The drain loop *)

Section Drain.
Variable randomUUID : nat -> string.

(** Every entry is accounted for: patched once, or still in the map. The
    loop ends with the map empty, or by throwing the rejection of an
    entry that is left in the map; rejected entries never leave it. *)
Lemma drain_accounts : forall fuel now lag w,
  well_keyed (suspended w) = true ->
  List.length (suspended w) <= fuel ->
  exists ps ending w',
    drain randomUUID fuel now lag w = Some (ps, ending, w')
    /\ Permutation (map to ps ++ keys (suspended w')) (keys (suspended w))
    /\ (ending = None -> suspended w' = [])
    /\ (forall e, ending = Some e ->
                  exists k p, In (k, p) (suspended w') /\ outcome p = Rejected e)
    /\ (forall k p e, In (k, p) (suspended w) -> outcome p = Rejected e ->
                      In (k, p) (suspended w'))
    /\ incl (suspended w') (suspended w)
    /\ well_keyed (suspended w') = true.
Proof.
  induction fuel as [|fuel IH]; intros now lag w Hwk Hlen.
  - destruct (suspended w) as [|e m] eqn:Hm; [|simpl in Hlen; lia].
    exists [], None, w. simpl. rewrite !Hm. simpl.
    split; [reflexivity|]. split; [constructor|]. split; [reflexivity|].
    split; [discriminate|]. split; [contradiction|]. split; [apply incl_refl|reflexivity].
  - simpl. destruct (suspended w) as [|[k0 p0] m] eqn:Hm.
    + exists [], None, w. rewrite !Hm. simpl.
      split; [reflexivity|]. split; [constructor|]. split; [reflexivity|].
      split; [discriminate|]. split; [contradiction|]. split; [apply incl_refl|reflexivity].
    + cbn [suspended].
      destruct (race_some now p0 (values m)) as (q & resumed & Hrace).
      change (values ((k0, p0) :: m)) with (p0 :: values m). rewrite Hrace.
      pose proof (race_in _ _ _ _ Hrace) as Hq.
      change (p0 :: values m) with (values ((k0, p0) :: m)) in Hq.
      destruct (in_values _ _ Hq) as [k Hkq].
      pose proof (proj1 (well_keyed_spec _) Hwk) as [Hnd Hown].
      destruct (outcome q) as [[id element]|err] eqn:Hout.
      * assert (id = k) by (eapply Hown; eassumption). subst id.
        pose proof (delete_present _ _ _ Hnd Hkq) as Hperm.
        pose proof (Permutation_length Hperm) as Hl.
        cbn [List.length] in Hl, Hlen.
        destruct (IH (resumed + lag) lag
                     {| suspended := delete ((k0, p0) :: m) k; drawn := S (drawn w) |})
          as (ps & ending & w' & Hd & Hp & Hnone & Hsome & Hstay & Hincl & Hwk').
        { cbn [suspended]. apply delete_well_keyed. exact Hwk. }
        { cbn [suspended]. lia. }
        cbn [suspended drawn] in *. rewrite Hd.
        eexists; eexists; eexists. split; [reflexivity|].
        split; [|split; [exact Hnone|split; [exact Hsome|split; [|split; [|exact Hwk']]]]].
        -- simpl. rewrite Hp. apply (Permutation_map fst) in Hperm. exact Hperm.
        -- intros k' p' e Hin Hrej. apply Hstay with (e := e); [|exact Hrej].
           apply in_delete. split; [exact Hin|].
           intros ->. assert (p' = q) by (eapply one_promise_per_key; eassumption).
           subst p'. congruence.
        -- intros x Hx. apply Hincl in Hx. destruct x as [k' p'].
           apply in_delete in Hx. apply Hx.
      * eexists; eexists; eexists. split; [reflexivity|]. cbn [suspended].
        repeat split; auto; try discriminate.
        -- intros e [= <-]. exists k, q. split; assumption.
        -- apply incl_refl.
Qed.

Lemma all_fulfil_spec (m : Map) :
  all_fulfil m = true <-> forall k p, In (k, p) m -> exists r, outcome p = Fulfilled r.
Proof.
  unfold all_fulfil. rewrite forallb_forall. split.
  - intros H k p Hin. specialize (H _ Hin). unfold fulfils in H. simpl in H.
    destruct (outcome p); [eexists; reflexivity|discriminate].
  - intros H [k p] Hin. destruct (H k p Hin) as [r Hr].
    unfold fulfils. simpl. rewrite Hr. reflexivity.
Qed.

(** When no promise rejects the loop empties the map and patches every
    entry once. *)
Lemma drain_all : forall now lag w,
  well_keyed (suspended w) = true ->
  all_fulfil (suspended w) = true ->
  exists ps w',
    drain randomUUID (List.length (suspended w)) now lag w = Some (ps, None, w')
    /\ suspended w' = []
    /\ Permutation (map to ps) (keys (suspended w)).
Proof.
  intros now lag w Hwk Hall.
  destruct (drain_accounts (List.length (suspended w)) now lag w Hwk (le_n _))
    as (ps & ending & w' & Hd & Hp & Hnone & Hsome & _ & Hincl & _).
  destruct ending as [e|].
  - destruct (Hsome e eq_refl) as (k & p & Hin & Hrej).
    apply Hincl in Hin.
    destruct (proj1 (all_fulfil_spec _) Hall k p Hin) as [r Hr]. congruence.
  - exists ps, w'. split; [exact Hd|]. split; [auto|].
    rewrite (Hnone eq_refl) in Hp. simpl in Hp. rewrite app_nil_r in Hp. exact Hp.
Qed.

Lemma NoDup_app_disjoint {A} (l1 l2 : list A) x :
  NoDup (l1 ++ l2) -> In x l1 -> In x l2 -> False.
Proof.
  induction l1 as [|a l1 IH]; simpl; intros Hnd H1 H2; [contradiction|].
  inversion Hnd as [|? ? Ha Hrest]; subst.
  destruct H1 as [->|H1].
  - apply Ha. apply in_or_app. right. exact H2.
  - apply IH; assumption.
Qed.

(** C3, as the code has it. A rejected promise is not caught: the drain
    loop ends by throwing the rejection of an entry that won a race. The
    failed subtree gets no patch at all and stays in the map, and so does
    every subtree that had not been patched before the throw. *)
Theorem rejection_ends_drain
        (now lag : nat) (w : world) (k : string) (p : Promise resolution) (e : thrown) :
  well_keyed (suspended w) = true ->
  In (k, p) (suspended w) ->
  outcome p = Rejected e ->
  exists ps err w',
    drain randomUUID (List.length (suspended w)) now lag w = Some (ps, Some err, w')
    /\ (exists k' p', In (k', p') (suspended w') /\ outcome p' = Rejected err)
    /\ In (k, p) (suspended w')
    /\ Permutation (map to ps ++ keys (suspended w')) (keys (suspended w))
    /\ forall id, In id (keys (suspended w')) -> ~ In id (map to ps).
Proof.
  intros Hwk Hin Hrej.
  destruct (drain_accounts (List.length (suspended w)) now lag w Hwk (le_n _))
    as (ps & ending & w' & Hd & Hp & Hnone & Hsome & Hstay & _ & _).
  pose proof (Hstay k p e Hin Hrej) as Hleft.
  destruct ending as [err|].
  - exists ps, err, w'. split; [exact Hd|]. split; [apply Hsome; reflexivity|].
    split; [exact Hleft|]. split; [exact Hp|].
    intros id Hid Hps.
    apply (NoDup_app_disjoint (map to ps) (keys (suspended w')) id); try assumption.
    apply (Permutation_NoDup (Permutation_sym Hp)).
    apply (proj1 (well_keyed_spec _) Hwk).
  - rewrite (Hnone eq_refl) in Hleft. contradiction.
Qed.





End Drain.

(** *** Several responses *)

Lemma nth_error_update_same {A} (l : list A) i x y :
  nth_error l i = Some y -> nth_error (update l i x) i = Some x.
Proof.
  revert i. induction l as [|a l IH]; intros [|i]; simpl; try discriminate; auto.
Qed.

Lemma nth_error_update_other {A} (l : list A) i j x :
  i <> j -> nth_error (update l i x) j = nth_error l j.
Proof.
  revert i j. induction l as [|a l IH]; intros [|i] [|j] Hne; simpl;
    try reflexivity; try congruence.
  apply IH. congruence.
Qed.

Lemma in_update {A} (l : list A) i x y : In y (update l i x) -> y = x \/ In y l.
Proof.
  revert i. induction l as [|a l IH]; intros [|i]; simpl; try tauto.
  - intros [<-|H]; auto.
  - intros [<-|H]; auto. destruct (IH _ H); auto.
Qed.

Lemma delete_removes (m : Map) id : ~ In id (keys (delete m id)).
Proof.
  unfold keys. rewrite in_map_iff. intros ([k p] & Heq & Hin). simpl in Heq. subst k.
  apply in_delete in Hin. destruct Hin as [_ Hne]. congruence.
Qed.

Lemma keys_delete (m : Map) id k : In k (keys (delete m id)) -> In k (keys m).
Proof.
  unfold keys. rewrite !in_map_iff. intros ([k' p] & Heq & Hin).
  apply in_delete in Hin. exists (k', p). split; [exact Heq|apply Hin].
Qed.

Section Process.
Variable randomUUID : nat -> string.

(** A pull changes neither the map, nor what was declared or emitted. *)
Lemma pull_effect (s : process) (g now : nat) :
  suspended (module_state (step randomUUID s (Pull g now))) = suspended (module_state s)
  /\ declared (step randomUUID s (Pull g now)) = declared s
  /\ emitted (step randomUUID s (Pull g now)) = emitted s.
Proof.
  cbn [step].
  destruct (nth_error (generators s) g) as [d|]; [|auto].
  destruct (position d); auto.
  destruct (suspended (module_state s)) as [|entry m] eqn:Hm; [auto|].
  destruct (Promise_race now (values (entry :: m))) as [[p resumed]|]; auto.
Qed.

Lemma sound_same (s s' : process) :
  suspended (module_state s') = suspended (module_state s) ->
  declared s' = declared s ->
  sound s -> sound s'.
Proof. unfold sound. intros -> ->. auto. Qed.

Lemma step_sound (s : process) (e : event) :
  sound s -> sound (step randomUUID s e).
Proof.
  intros Hs. pose proof Hs as [Hwk Hdecl].
  destruct e as [r now children|r|g now|g].
  - cbn [step register fst snd]. split.
    + cbn [module_state suspended].
      apply set_well_keyed; [exact Hwk|].
      destruct children; apply resolve_with_own_key.
    + cbn [module_state suspended declared]. intros id. rewrite keys_set.
      intros Hid.
      assert (In id (keys (suspended (module_state s)))
              \/ id = ("suspense-" ++ randomUUID (drawn (module_state s)))%string) as [H | ->].
      { destruct (existsb _ _); [left; exact Hid|].
        apply in_app_or in Hid. destruct Hid as [?|[<-|[]]]; auto. }
      * destruct (Hdecl id H) as [r' Hr']. exists r'. apply in_or_app. left. exact Hr'.
      * exists r. apply in_or_app. right. left. reflexivity.
  - cbn [step]. destruct (Resolve (module_state s)); [|exact Hs].
    apply (sound_same s); [reflexivity|reflexivity|exact Hs].
  - destruct (pull_effect s g now) as (Hm & Hd & _).
    apply (sound_same s); assumption.
  - cbn [step].
    destruct (nth_error (generators s) g) as [d|]; [|exact Hs].
    destruct (position d) as [|templateId p resumed| |]; try exact Hs.
    destruct (outcome p) as [[id element]|e].
    + split; cbn [module_state suspended declared].
      * apply delete_well_keyed. exact Hwk.
      * intros k Hk. apply Hdecl. eapply keys_delete. exact Hk.
    + apply (sound_same s); [reflexivity|reflexivity|exact Hs].
Qed.

Lemma fold_sound (events : list event) (s : process) :
  sound s -> sound (fold_left (step randomUUID) events s).
Proof.
  revert s. induction events as [|e events IH]; intros s Hs; simpl; [exact Hs|].
  apply IH. apply step_sound. exact Hs.
Qed.

Lemma run_sound (events : list event) : sound (run randomUUID events).
Proof.
  unfold run. apply fold_sound. split; [reflexivity|]. intros id [].
Qed.

(** Events that are not of generator [g] leave it where it stands. *)
Lemma step_other (s : process) (e : event) (g : nat) (d : resolver) :
  other_than g e = true ->
  nth_error (generators s) g = Some d ->
  nth_error (generators (step randomUUID s e)) g = Some d.
Proof.
  intros He Hg. destruct e as [r now children|r|g' now|g']; cbn [step other_than] in *.
  - exact Hg.
  - destruct (Resolve (module_state s)); [|exact Hg].
    cbn [generators]. rewrite nth_error_app1; [exact Hg|].
    apply nth_error_Some. congruence.
  - apply negb_true_iff, Nat.eqb_neq in He.
    destruct (nth_error (generators s) g') as [d'|]; [|exact Hg].
    destruct (position d'); try exact Hg.
    destruct (suspended (module_state s)) as [|entry m].
    + cbn [generators]. rewrite nth_error_update_other by exact He. exact Hg.
    + destruct (Promise_race now (values (entry :: m))) as [[p resumed]|]; [|exact Hg].
      cbn [generators]. rewrite nth_error_update_other by exact He. exact Hg.
  - apply negb_true_iff, Nat.eqb_neq in He.
    destruct (nth_error (generators s) g') as [d'|]; [|exact Hg].
    destruct (position d') as [|templateId p resumed| |]; try exact Hg.
    destruct (outcome p) as [[id element]|e];
      cbn [generators]; rewrite nth_error_update_other by exact He; exact Hg.
Qed.

Lemma fold_others (others : list event) (s : process) (g : nat) (d : resolver) :
  forallb (other_than g) others = true ->
  nth_error (generators s) g = Some d ->
  nth_error (generators (fold_left (step randomUUID) others s)) g = Some d.
Proof.
  revert s. induction others as [|e others IH]; intros s Hall Hg; simpl in *; [exact Hg|].
  apply andb_true_iff in Hall. destruct Hall as [He Hall].
  apply IH; [exact Hall|]. apply step_other; assumption.
Qed.

(** A pull at the loop test on a map that is not empty: the race is on
    all the values of the map. *)
Lemma pull_races (s : process) (g now : nat) (d : resolver) :
  nth_error (generators s) g = Some d ->
  position d = AtLoopTest ->
  suspended (module_state s) <> [] ->
  exists p resumed,
    Promise_race now (values (suspended (module_state s))) = Some (p, resumed)
    /\ step randomUUID s (Pull g now)
       = {| module_state := {| suspended := suspended (module_state s);
                               drawn := S (drawn (module_state s)) |};
            declared := declared s;
            emitted := emitted s;
            generators := update (generators s) g
                            {| owner := owner d;
                               position := AtRace (randomUUID (drawn (module_state s))) p resumed;
                               yielded := yielded d |} |}.
Proof.
  intros Hg Hpos Hne. cbn [step]. rewrite Hg, Hpos.
  destruct (suspended (module_state s)) as [|[k0 p0] m] eqn:Hm; [congruence|].
  destruct (race_some now p0 (values m)) as (p & resumed & Hrace).
  change (values ((k0, p0) :: m)) with (p0 :: values m). rewrite Hrace.
  exists p, resumed. split; reflexivity.
Qed.

(** The uninterrupted consumer goes through the iterations of [drain]. *)
Lemma consume_stopped (fuel g now lag : nat) (s : process) (d : resolver) :
  nth_error (generators s) g = Some d ->
  (position d = Returned \/ exists e, position d = Threw e) ->
  consume randomUUID fuel g now lag s = s.
Proof.
  intros Hg Hpos. destruct fuel as [|fuel]; [reflexivity|].
  cbn [consume step]. rewrite Hg.
  destruct Hpos as [Hpos|[e Hpos]]; rewrite Hpos; rewrite Hg; cbn [option_map]; rewrite Hpos;
    reflexivity.
Qed.

Lemma consume_drain : forall fuel now lag s g d ps ending w',
  nth_error (generators s) g = Some d ->
  position d = AtLoopTest ->
  drain randomUUID fuel now lag (module_state s) = Some (ps, ending, w') ->
  module_state (consume randomUUID fuel g now lag s) = w'
  /\ declared (consume randomUUID fuel g now lag s) = declared s
  /\ emitted (consume randomUUID fuel g now lag s)
     = emitted s ++ map (fun p => (owner d, p)) ps
  /\ exists d',
       nth_error (generators (consume randomUUID fuel g now lag s)) g = Some d'
       /\ owner d' = owner d
       /\ yielded d' = yielded d ++ ps
       /\ match ending with
          | Some e => position d' = Threw e
          | None => position d' = AtLoopTest \/ position d' = Returned
          end.
Proof.
  induction fuel as [|fuel IH]; intros now lag s g d ps ending w' Hg Hpos Hd.
  - cbn [drain] in Hd. destruct (suspended (module_state s)); [|discriminate].
    injection Hd as <- <- <-. cbn [consume map]. rewrite !app_nil_r.
    split; [reflexivity|]. split; [reflexivity|]. split; [reflexivity|].
    exists d. auto.
  - cbn [drain] in Hd. cbn [consume].
    destruct (suspended (module_state s)) as [|entry m] eqn:Hm.
    + injection Hd as <- <- <-.
      cbn [step]. rewrite Hg, Hpos, Hm. cbn [generators].
      rewrite (nth_error_update_same _ _ _ _ Hg). cbn [option_map position map].
      rewrite !app_nil_r.
      split; [reflexivity|]. split; [reflexivity|]. split; [reflexivity|].
      eexists. split; [apply (nth_error_update_same _ _ _ _ Hg)|]. cbn. auto.
    + destruct (pull_races s g now d Hg Hpos) as (p & resumed & Hrace & Hstep).
      { rewrite Hm. discriminate. }
      rewrite Hstep. rewrite Hm in Hrace. cbn [suspended] in Hd. rewrite Hrace in Hd.
      cbn [generators]. rewrite (nth_error_update_same _ _ _ _ Hg).
      cbn [option_map position step generators module_state].
      rewrite (nth_error_update_same _ _ _ _ Hg). cbn [position owner yielded].
      destruct (outcome p) as [[id element]|e] eqn:Hout.
      * destruct (drain randomUUID fuel (resumed + lag) lag _)
          as [[[ps' ending'] w'']|] eqn:Hd'; [|discriminate].
        injection Hd as <- <- <-.
        cbn [suspended drawn] in Hd'.
        match goal with
        | |- context [consume randomUUID fuel g (resumed + lag) lag ?s1] =>
            destruct (IH (resumed + lag) lag s1 g
                         {| owner := owner d; position := AtLoopTest;
                            yielded := yielded d
                                       ++ [{| to := id;
                                              from := randomUUID (drawn (module_state s));
                                              element := element |}] |}
                         ps' ending' w'')
              as (Hw & Hdecl & Hem & d' & Hg' & Howner & Hy & Hend)
        end.
        { cbn [generators]. eapply nth_error_update_same.
          apply (nth_error_update_same _ _ _ _ Hg). }
        { reflexivity. }
        { cbn [module_state]. rewrite Hm. exact Hd'. }
        cbn [declared emitted owner yielded] in *.
        split; [exact Hw|]. split; [exact Hdecl|].
        split; [rewrite Hem, <- app_assoc; reflexivity|].
        exists d'. split; [exact Hg'|]. split; [exact Howner|].
        split; [rewrite Hy, <- app_assoc; reflexivity|exact Hend].
      * injection Hd as <- <- <-.
        match goal with
        | |- context [consume randomUUID fuel g (resumed + lag) lag ?s1] =>
            rewrite (consume_stopped fuel g (resumed + lag) lag s1
                       {| owner := owner d; position := Threw e; yielded := yielded d |})
        end.
        -- cbn [module_state declared emitted generators map]. rewrite Hm, !app_nil_r.
           split; [reflexivity|]. split; [reflexivity|]. split; [reflexivity|].
           eexists. split.
           ++ eapply nth_error_update_same.
              apply (nth_error_update_same _ _ _ _ Hg).
           ++ cbn. auto.
        -- cbn [generators]. eapply nth_error_update_same.
           apply (nth_error_update_same _ _ _ _ Hg).
        -- right. eexists. reflexivity.
Qed.

(** C1, as the code has it. [suspended] is one map for the whole process
    and nothing scopes an entry to a response. Whatever the responses in
    flight have declared and drained so far, for a generator of [Resolve]
    that belongs to response [r] and stands at its loop test:
    - one iteration: the race is on every entry then in the map,
      whichever response declared it; whatever the other responses declare
      or drain while the race is awaited, when the winner is fulfilled its
      patch is yielded into the stream of [r] and its entry is out of the
      map, and when it is rejected nothing is yielded and the generator
      ends by throwing;
    - the whole drain, with no other event between its iterations and no
      promise rejecting: one patch for every entry then in the map goes
      into the stream of [r], whichever response declared it, and the map
      is left empty. *)
Theorem resolve_drains_every_response
        (events : list event) (g r now : nat) (d : resolver) :
  let s := run randomUUID events in
  nth_error (generators s) g = Some d ->
  owner d = r ->
  position d = AtLoopTest ->
  (suspended (module_state s) <> [] ->
   exists id p resumed declarer,
     Promise_race now (values (suspended (module_state s))) = Some (p, resumed)
     /\ In (id, p) (suspended (module_state s))
     /\ In (declarer, id) (declared s)
     /\ forall others,
          forallb (other_than g) others = true ->
          let awaiting := fold_left (step randomUUID) (Pull g now :: others) s in
          let s' := step randomUUID awaiting (Settle g) in
          match outcome p with
          | Fulfilled (_, html) =>
              emitted s'
              = emitted awaiting
                ++ [(r, {| to := id; from := randomUUID (drawn (module_state s));
                           element := html |})]
              /\ ~ In id (keys (suspended (module_state s')))
          | Rejected e =>
              emitted s' = emitted awaiting
              /\ option_map position (nth_error (generators s') g) = Some (Threw e)
          end)
  /\ (all_fulfil (suspended (module_state s)) = true ->
      forall lag,
        let s' := consume randomUUID (List.length (suspended (module_state s))) g now lag s in
        suspended (module_state s') = []
        /\ exists ps,
             emitted s' = emitted s ++ map (fun p => (r, p)) ps
             /\ Permutation (map to ps) (keys (suspended (module_state s)))
             /\ forall id, In id (keys (suspended (module_state s))) ->
                           (exists declarer, In (declarer, id) (declared s))
                           /\ exists p, In (r, p) (emitted s') /\ to p = id).
Proof.
  intros s Hg Howner Hpos.
  destruct (run_sound events) as [Hwk Hdecl]. fold s in Hwk, Hdecl.
  split.
  - intros Hne.
    destruct (pull_races s g now d Hg Hpos Hne) as (p & resumed & Hrace & Hstep).
    destruct (in_values _ _ (race_in _ _ _ _ Hrace)) as [id Hin].
    destruct (Hdecl id (in_keys _ _ _ Hin)) as [declarer Hdeclarer].
    exists id, p, resumed, declarer.
    split; [exact Hrace|]. split; [exact Hin|]. split; [exact Hdeclarer|].
    intros others Hothers awaiting s'. subst s'.
    assert (Hawaiting : nth_error (generators awaiting) g
                        = Some {| owner := owner d;
                                  position := AtRace (randomUUID (drawn (module_state s)))
                                                     p resumed;
                                  yielded := yielded d |}).
    { subst awaiting. cbn [fold_left]. apply fold_others; [exact Hothers|].
      rewrite Hstep. cbn [generators]. apply (nth_error_update_same _ _ _ _ Hg). }
    cbn [step]. rewrite Hawaiting. cbn [position owner yielded].
    destruct (outcome p) as [[id' html]|e] eqn:Hout.
    + assert (id' = id).
      { apply (proj2 (proj1 (well_keyed_spec _) Hwk) id p id' html Hin Hout). }
      subst id'. cbn [emitted module_state suspended]. rewrite Howner.
      split; [reflexivity|apply delete_removes].
    + cbn [emitted generators]. split; [reflexivity|].
      rewrite (nth_error_update_same _ _ _ _ Hawaiting). reflexivity.
  - intros Hall lag s'. subst s'.
    destruct (drain_all randomUUID now lag (module_state s) Hwk Hall)
      as (ps & w' & Hd & Hempty & Hperm).
    destruct (consume_drain _ _ _ _ _ _ _ _ _ Hg Hpos Hd) as (Hw & _ & Hem & _).
    rewrite Hw. split; [exact Hempty|]. exists ps.
    rewrite Howner in Hem. split; [exact Hem|]. split; [exact Hperm|].
    intros id Hid. split; [apply Hdecl; exact Hid|].
    apply (Permutation_in _ (Permutation_sym Hperm)) in Hid.
    apply in_map_iff in Hid. destruct Hid as (p & Hp & Hin).
    exists p. split; [|exact Hp]. rewrite Hem.
    apply in_or_app. right. apply in_map_iff. exists p. split; [reflexivity|exact Hin].
Qed.

End Process.

(** *** The examples *)

Lemma resolve_drains_every_response_witness :
  let events := [RenderSuspense 1 0 (Scenarios.after 10 "<p>slow</p>"); RenderResolve 2] in
  let s := run Scenarios.uuid events in
  let d := {| owner := 2; position := AtLoopTest; yielded := [] |} in
  nth_error (generators s) 0 = Some d
  /\ declared s = [(1, "suspense-a")]
  /\ (suspended (module_state s) <> [] ->
      exists id p resumed declarer,
        Promise_race 0 (values (suspended (module_state s))) = Some (p, resumed)
        /\ In (id, p) (suspended (module_state s))
        /\ In (declarer, id) (declared s)
        /\ forall others,
             forallb (other_than 0) others = true ->
             let awaiting := fold_left (step Scenarios.uuid) (Pull 0 0 :: others) s in
             let s' := step Scenarios.uuid awaiting (Settle 0) in
             match outcome p with
             | Fulfilled (_, html) =>
                 emitted s'
                 = emitted awaiting
                   ++ [(2, {| to := id; from := Scenarios.uuid (drawn (module_state s));
                              element := html |})]
                 /\ ~ In id (keys (suspended (module_state s')))
             | Rejected e =>
                 emitted s' = emitted awaiting
                 /\ option_map position (nth_error (generators s') 0) = Some (Threw e)
             end)
  /\ (all_fulfil (suspended (module_state s)) = true ->
      forall lag,
        let s' := consume Scenarios.uuid (List.length (suspended (module_state s))) 0 0 lag s in
        suspended (module_state s') = []
        /\ exists ps,
             emitted s' = emitted s ++ map (fun p => (2, p)) ps
             /\ Permutation (map to ps) (keys (suspended (module_state s)))
             /\ forall id, In id (keys (suspended (module_state s))) ->
                           (exists declarer, In (declarer, id) (declared s))
                           /\ exists p, In (2, p) (emitted s') /\ to p = id).
Proof.
  cbv zeta. split; [reflexivity|]. split; [reflexivity|].
  apply (resolve_drains_every_response Scenarios.uuid
           [RenderSuspense 1 0 (Scenarios.after 10 "<p>slow</p>"); RenderResolve 2]
           0 2 0 {| owner := 2; position := AtLoopTest; yielded := [] |});
    reflexivity.
Defined.

(** C1 fails as stated: the subtree declared while rendering response 1
    is patched into the stream of response 2. *)
Lemma entry_drained_into_other_response :
  let s := run Scenarios.uuid Scenarios.two_responses in
  declared s = [(1, "suspense-a")]
  /\ emitted s = [(2, {| to := "suspense-a"; from := "b"; element := "<p>slow</p>" |})]
  /\ suspended (module_state s) = [].
Proof.
  cbv zeta. split; [reflexivity|]. split; reflexivity.
Qed.

(** Two drains in flight await a race over the same entry: both patch
    it, each into its own stream. *)
Example entry_patched_into_two_streams :
  let s := run Scenarios.uuid
             [RenderSuspense 1 0 (Scenarios.after 10 "<p>slow</p>");
              RenderResolve 1; RenderResolve 2;
              Pull 0 0; Pull 1 0; Settle 0; Settle 1] in
  emitted s = [(1, {| to := "suspense-a"; from := "b"; element := "<p>slow</p>" |});
               (2, {| to := "suspense-a"; from := "c"; element := "<p>slow</p>" |})].
Proof. reflexivity. Qed.

(** Response 1 renders its [<Resolve />] while its entry is in the map,
    but the drain of response 2 takes the entry first: the generator of
    response 1 finds the map empty and returns without a patch. *)
Example own_entry_taken_by_another_drain :
  let s := run Scenarios.uuid
             [RenderSuspense 1 0 (Scenarios.after 10 "<p>slow</p>");
              RenderResolve 1; RenderResolve 2;
              Pull 1 0; Settle 1; Pull 0 20] in
  emitted s = [(2, {| to := "suspense-a"; from := "b"; element := "<p>slow</p>" |})]
  /\ map position (generators s) = [Returned; AtLoopTest].
Proof. split; reflexivity. Qed.

(** A subtree declared while a drain awaits its race, as by a nested
    [<Suspense>], is in the map at the next loop test: the drain goes on
    for longer than the entries it started with. *)
Example entry_declared_during_the_drain :
  let s := run Scenarios.uuid
             [RenderSuspense 1 0 (Scenarios.after 10 "<p>outer</p>");
              RenderResolve 1;
              Pull 0 0;
              RenderSuspense 1 5 (Scenarios.after 20 "<p>inner</p>");
              Settle 0; Pull 0 10; Settle 0; Pull 0 20] in
  map (fun e => to (snd e)) (emitted s) = ["suspense-a"; "suspense-c"]
  /\ map position (generators s) = [Returned].
Proof. split; reflexivity. Qed.

Lemma rejection_ends_drain_witness :
  let w := Scenarios.failing_and_sibling in
  let failed := {| settles_at := 10; outcome := Rejected (ThrownError "fetch failed") |} in
  well_keyed (suspended w) = true
  /\ In ("suspense-a", failed) (suspended w)
  /\ exists ps err w',
       drain Scenarios.uuid (List.length (suspended w)) 0 0 w = Some (ps, Some err, w')
       /\ (exists k' p', In (k', p') (suspended w') /\ outcome p' = Rejected err)
       /\ In ("suspense-a", failed) (suspended w')
       /\ Permutation (map to ps ++ keys (suspended w')) (keys (suspended w))
       /\ forall id, In id (keys (suspended w')) -> ~ In id (map to ps).
Proof.
  cbv zeta. split; [reflexivity|]. split; [left; reflexivity|].
  apply (rejection_ends_drain Scenarios.uuid 0 0 Scenarios.failing_and_sibling
           "suspense-a" _ (ThrownError "fetch failed")).
  - reflexivity.
  - left. reflexivity.
  - reflexivity.
Defined.

(** C3 fails as stated: one subtree fails after 10 ms, its sibling
    completes after 20 ms; the drain loop throws at the failure, emits no
    patch for either, and both stay in the map. *)
Lemma failed_subtree_blocks_sibling :
  let w := Scenarios.failing_and_sibling in
  keys (suspended w) = ["suspense-a"; "suspense-b"]
  /\ map (fun p => fulfils p) (values (suspended w)) = [false; true]
  /\ drain Scenarios.uuid 2 0 0 w
     = Some ([], Some (ThrownError "fetch failed"),
             {| suspended := suspended w; drawn := 3 |}).
Proof.
  cbv zeta. split; [reflexivity|]. split; reflexivity.
Qed.


(** The three subtrees of the specification, drained from instant 0:
    10 ms, 20 ms, 30 ms. *)
Example three_subtrees_from_the_start :
  option_map (fun '(ps, _, _) => map element ps)
             (drain Scenarios.uuid 3 0 0 Scenarios.three_subtrees)
  = Some ["<p>10</p>"; "<p>20</p>"; "<p>30</p>"].
Proof. reflexivity. Qed.

(** Subtrees completing after 12, 11 and 10 ms, drained from instant 0
    by a consumer that takes 5 ms per patch: the second race finds two
    promises settled and the one declared first wins. *)
Example slow_consumer_reorders :
  let w := module_state
             (run Scenarios.uuid [RenderSuspense 1 0 (Scenarios.after 12 "<p>12</p>");
                                  RenderSuspense 1 0 (Scenarios.after 11 "<p>11</p>");
                                  RenderSuspense 1 0 (Scenarios.after 10 "<p>10</p>")]) in
  option_map (fun '(ps, _, _) => map element ps) (drain Scenarios.uuid 3 0 5 w)
  = Some ["<p>10</p>"; "<p>12</p>"; "<p>11</p>"].
Proof. reflexivity. Qed.


End SuspenseFacts.

(* ================================================================== *)
(** ** Properties of the JSX runtime *)
(* ================================================================== *)

Module JsxFacts.
Import Ascii Platform Node Jsx.

Lemma occurs_append (char : Ascii.ascii) (a b : string) :
  occurs char (a ++ b)%string = occurs char a || occurs char b.
Proof.
  induction a as [|c a IH]; cbn [String.append occurs]; [reflexivity|].
  rewrite IH, orb_assoc. reflexivity.
Qed.

Lemma escape_char_cases (char : Ascii.ascii) :
  (special char = true
   /\ exists name, escape_char char = String "&"%char name /\ plain name = true)
  \/ (special char = false /\ escape_char char = String char EmptyString).
Proof.
  unfold escape_char, special.
  destruct (Ascii.eqb char "&"%char); [left; split; [reflexivity|eexists; split; reflexivity]|].
  destruct (Ascii.eqb char "<"%char); [left; split; [reflexivity|eexists; split; reflexivity]|].
  destruct (Ascii.eqb char ">"%char); [left; split; [reflexivity|eexists; split; reflexivity]|].
  destruct (Ascii.eqb char double_quote);
    [left; split; [reflexivity|eexists; split; reflexivity]|].
  destruct (Ascii.eqb char "'"%char); [left; split; [reflexivity|eexists; split; reflexivity]|].
  right. split; reflexivity.
Qed.

Lemma plain_occurs (s : string) (char : Ascii.ascii) :
  plain s = true -> special char = true -> occurs char s = false.
Proof.
  intros Hs Hc. induction s as [|c s IH]; cbn [plain occurs] in *; [reflexivity|].
  apply andb_true_iff in Hs. destruct Hs as [Hplain Hrest].
  rewrite IH by exact Hrest. rewrite orb_false_r.
  apply Ascii.eqb_neq. intros ->. rewrite Hc in Hplain. discriminate.
Qed.

Lemma escaped_has_no (char : ascii) (input : string) :
  special char = true -> char <> "&"%char -> occurs char (escapeHtml input) = false.
Proof.
  intros Hspecial Hamp.
  induction input as [|c rest IH]; cbn [escapeHtml occurs]; [reflexivity|].
  rewrite occurs_append, IH, orb_false_r.
  destruct (escape_char_cases c) as [(_ & name & -> & Hname)|(Hc & ->)];
    cbn [occurs].
  - rewrite (plain_occurs name char Hname Hspecial), orb_false_r.
    apply Ascii.eqb_neq. congruence.
  - rewrite orb_false_r. apply Ascii.eqb_neq. congruence.
Qed.

(** X1. Escaped text holds none of the characters [<], [>], the double
    quote and the apostrophe, whatever the input. *)
Theorem escapeHtml_leaves_no_markup (input : string) :
  occurs "<"%char (escapeHtml input) = false
  /\ occurs ">"%char (escapeHtml input) = false
  /\ occurs double_quote (escapeHtml input) = false
  /\ occurs "'"%char (escapeHtml input) = false.
Proof.
  repeat split; apply escaped_has_no; try reflexivity; discriminate.
Qed.

(** X2. Escaping distributes over concatenation: text may be escaped
    piece by piece. *)
Theorem escapeHtml_append (a b : string) :
  escapeHtml (a ++ b)%string = (escapeHtml a ++ escapeHtml b)%string.
Proof.
  induction a as [|c a IH]; cbn [String.append escapeHtml]; [reflexivity|].
  rewrite IH. induction (escape_char c) as [|e rest IHe]; cbn [String.append].
  - reflexivity.
  - rewrite IHe. reflexivity.
Qed.

Lemma escape_char_spec (c : ascii) :
  (c = "&"%char /\ escape_char c = "&amp;")
  \/ (c = "<"%char /\ escape_char c = "&lt;")
  \/ (c = ">"%char /\ escape_char c = "&gt;")
  \/ (c = double_quote /\ escape_char c = "&quot;")
  \/ (c = "'"%char /\ escape_char c = "&#39;")
  \/ (special c = false /\ escape_char c = String c EmptyString).
Proof.
  unfold escape_char, special.
  destruct (Ascii.eqb_spec c "&"%char); [left; auto|right].
  destruct (Ascii.eqb_spec c "<"%char); [left; auto|right].
  destruct (Ascii.eqb_spec c ">"%char); [left; auto|right].
  destruct (Ascii.eqb_spec c double_quote); [left; auto|right].
  destruct (Ascii.eqb_spec c "'"%char); [left; auto|right].
  split; reflexivity.
Qed.

Ltac escape_cases c H :=
  destruct (escape_char_spec c) as [[-> H]|[[-> H]|[[-> H]|[[-> H]|[[-> H]|[? H]]]]]].

Lemma escape_char_injective (c d : ascii) (x y : string) :
  (escape_char c ++ x)%string = (escape_char d ++ y)%string -> c = d /\ x = y.
Proof.
  intros H.
  escape_cases c Hc; escape_cases d Hd; rewrite ?Hc, ?Hd in H;
    cbn [String.append] in H; try discriminate H;
    try (injection H as H; split; [reflexivity|exact H]);
    try (injection H as Heq _; subst; discriminate).
  injection H as -> ->. split; reflexivity.
Qed.

Lemma escapeHtml_cancel (a : string) : forall b,
  escapeHtml a = escapeHtml b -> a = b.
Proof.
  induction a as [|c a IH]; intros [|d b] H; cbn [escapeHtml] in H.
  - reflexivity.
  - destruct (escape_char_cases d) as [(_ & name & Hd & _)|(_ & Hd)];
      rewrite Hd in H; discriminate H.
  - destruct (escape_char_cases c) as [(_ & name & Hc & _)|(_ & Hc)];
      rewrite Hc in H; discriminate H.
  - destruct (escape_char_injective c d _ _ H) as [-> Hrest].
    f_equal. apply IH. exact Hrest.
Qed.

(** X3. Escaping loses nothing: two different texts never escape to the
    same markup. *)
Theorem escapeHtml_injective (a b : string) :
  escapeHtml a = escapeHtml b -> a = b.
Proof. apply escapeHtml_cancel. Qed.

Lemma escapeHtml_injective_witness :
  escapeHtml "a<b" = escapeHtml "a<b" /\ "a<b" = "a<b".
Proof.
  split; [reflexivity|]. apply escapeHtml_injective. reflexivity.
Defined.

Lemma escapeHtml_length (s : string) :
  String.length s <= String.length (escapeHtml s)
  /\ (plain s = false -> String.length s < String.length (escapeHtml s)).
Proof.
  assert (Hlen : forall a b, String.length (a ++ b)%string
                             = String.length a + String.length b).
  { intros a b. induction a as [|c a IH]; cbn [String.append String.length];
      [reflexivity|]. rewrite IH. reflexivity. }
  induction s as [|c s [IHle IHlt]]; cbn [escapeHtml plain String.length].
  - split; [lia|discriminate].
  - rewrite Hlen.
    escape_cases c Hc; rewrite Hc; cbn [String.length];
      try (split; [lia|intros _; lia]).
    rewrite H. cbn [negb andb]. split; [lia|].
    intros Hs. specialize (IHlt Hs). lia.
Qed.

(** X4. Text without any of the five characters is left as it is, and
    only such text is: escaping changes every text that holds one of
    them. Hence escaping twice is not escaping once. *)
Theorem escapeHtml_fixes_plain_text_only (s : string) :
  (plain s = true <-> escapeHtml s = s)
  /\ (plain s = true <-> escapeHtml (escapeHtml s) = escapeHtml s).
Proof.
  assert (Hfix : forall t, plain t = true <-> escapeHtml t = t).
  { intros t. split.
    - induction t as [|c t IH]; cbn [plain escapeHtml]; [reflexivity|].
      intros H. apply andb_true_iff in H. destruct H as [Hc Ht].
      apply negb_true_iff in Hc.
      destruct (escape_char_cases c) as [(Hc' & _)|(_ & ->)]; [congruence|].
      cbn [String.append]. rewrite IH by exact Ht. reflexivity.
    - intros H. destruct (plain t) eqn:Hp; [reflexivity|].
      pose proof (proj2 (escapeHtml_length t) Hp) as Hlt. rewrite H in Hlt. lia. }
  split; [apply Hfix|].
  split.
  - intros H. rewrite (proj1 (Hfix s) H). apply Hfix. exact H.
  - intros H. apply Hfix. apply escapeHtml_cancel. exact H.
Qed.

Lemma replace_quotes_no_quote (s : string) :
  occurs double_quote (replace_quotes s) = false.
Proof.
  induction s as [|c s IH]; cbn [replace_quotes]; [reflexivity|].
  destruct (Ascii.eqb_spec c double_quote) as [->|Hc].
  - rewrite occurs_append, IH. reflexivity.
  - cbn [occurs]. rewrite IH, orb_false_r. apply Ascii.eqb_neq. exact Hc.
Qed.

(** X5. A string, boolean, null or undefined prop never yields an
    attribute value holding a double quote, so the value cannot end the
    quoted attribute it is written into; null, undefined, false and
    objects yield no attribute at all. *)
Theorem sanitize_keeps_the_attribute_closed (value : prop) :
  match value with
  | PNumber shown => sanitize value = Some shown
  | PNull | PUndefined | PBool false | PInnerHtml _ | PObject => sanitize value = None
  | _ => exists v, sanitize value = Some v /\ occurs double_quote v = false
  end.
Proof.
  destruct value as [s| | |[|]|shown|html|]; cbn [sanitize]; try reflexivity.
  - eexists. split; [reflexivity|]. apply replace_quotes_no_quote.
  - eexists. split; reflexivity.
Qed.

(** *** Children *)

Section ChildInduction.
Variable P : child -> Prop.
Variable Q : generator -> Prop.
Hypothesis on_Nothing : P Nothing.
Hypothesis on_Awaited : forall c, P c -> P (Awaited c).
Hypothesis on_Rejecting : forall e, P (Rejecting e).
Hypothesis on_Markup : forall g body, Q body -> P (Markup g body).
Hypothesis on_Items : forall cs, Forall P cs -> P (Items cs).
Hypothesis on_Calling : forall c, P c -> P (Calling c).
Hypothesis on_CallThrows : forall e, P (CallThrows e).
Hypothesis on_Shown : forall text, P (Shown text).
Hypothesis on_Chunks : forall text failure, Q (Chunks text failure).
Hypothesis on_Element : forall tag attrs dangerousHtml c,
  P c -> Q (Element tag attrs dangerousHtml c).

Lemma child_induction : forall c, P c.
Proof.
  fix IHc 1 with (IHb (body : generator) {struct body} : Q body).
  - intros [|c|e|g body|cs|c|e|text].
    + apply on_Nothing.
    + apply on_Awaited, IHc.
    + apply on_Rejecting.
    + apply on_Markup, IHb.
    + apply on_Items. induction cs as [|c cs IHcs]; constructor; [apply IHc|exact IHcs].
    + apply on_Calling, IHc.
    + apply on_CallThrows.
    + apply on_Shown.
  - intros [text failure|tag attrs dangerousHtml c].
    + apply on_Chunks.
    + apply on_Element, IHc.
Qed.

Lemma generator_induction : forall body, Q body.
Proof.
  intros [text failure|tag attrs dangerousHtml c].
  - apply on_Chunks.
  - apply on_Element, child_induction.
Qed.

End ChildInduction.

Lemma processChild_Items (cs : list child) (spent : list nat) :
  processChild (Items cs) spent = each cs spent.
Proof. revert spent. induction cs as [|c cs IH]; intros spent; reflexivity. Qed.

Lemma text_only_Items (cs : list child) :
  text_only (Items cs) = forallb text_only cs.
Proof.
  induction cs as [|c cs IH]; [reflexivity|].
  change (text_only (Items (c :: cs))) with (text_only c && text_only (Items cs)).
  rewrite IH. reflexivity.
Qed.

Lemma texts_Items (cs : list child) :
  texts (Items cs) = flat_map texts cs.
Proof.
  induction cs as [|c cs IH]; [reflexivity|].
  change (texts (Items (c :: cs))) with (texts c ++ texts (Items cs)).
  rewrite IH. reflexivity.
Qed.

Lemma processChild_text_only (c : child) :
  forall spent, text_only c = true ->
                processChild c spent = (map escapeHtml (texts c), None, spent).
Proof.
  apply (child_induction
           (fun c => forall spent, text_only c = true ->
                                   processChild c spent = (map escapeHtml (texts c), None, spent))
           (fun _ => True)).
  - reflexivity.
  - intros c' IH spent H. apply IH. exact H.
  - intros e spent H. discriminate H.
  - intros g body _ spent H. discriminate H.
  - intros cs IH spent H.
    rewrite processChild_Items, texts_Items. rewrite text_only_Items in H.
    revert spent. induction IH as [|c' cs Hc _ IHcs]; intros spent; [reflexivity|].
    cbn [forallb] in H. apply andb_true_iff in H. destruct H as [H1 H2].
    cbn [each flat_map]. rewrite (Hc spent H1), (IHcs H2 spent), map_app. reflexivity.
  - intros c' IH spent H. apply IH. exact H.
  - intros e spent H. discriminate H.
  - intros text spent _. reflexivity.
  - trivial.
  - trivial.
Qed.

(** X28. Children made of text only (strings and other values shown by
    their [toString()], in arrays, promises and functions, with holes for
    null, undefined and false) are yielded text by text in reading order,
    each one escaped; nothing is thrown, no generator is consumed, and no
    chunk holds an angle bracket. *)
Theorem text_children_are_escaped (c : child) (spent : list nat) :
  text_only c = true ->
  processChild c spent = (map escapeHtml (texts c), None, spent)
  /\ Forall (fun chunk => occurs "<"%char chunk = false /\ occurs ">"%char chunk = false)
            (map escapeHtml (texts c)).
Proof.
  intros Htext. split.
  - apply processChild_text_only. exact Htext.
  - apply Forall_forall. intros chunk Hin. apply in_map_iff in Hin.
    destruct Hin as (text & <- & _).
    split; apply escaped_has_no; try reflexivity; discriminate.
Qed.

Lemma text_children_are_escaped_witness :
  let c := Items [Shown "a < b"; Nothing; Calling (Awaited (Items [Shown "<script>"]))] in
  text_only c = true
  /\ processChild c [] = (["a &lt; b"; "&lt;script&gt;"], None, [])
  /\ Forall (fun chunk => occurs "<"%char chunk = false /\ occurs ">"%char chunk = false)
            (map escapeHtml (texts c)).
Proof.
  cbv zeta. split; [reflexivity|]. split; [reflexivity|].
  apply (text_children_are_escaped
           (Items [Shown "a < b"; Nothing; Calling (Awaited (Items [Shown "<script>"]))]) []).
  reflexivity.
Defined.

Lemma each_app (a b : list child) : forall spent,
  each (a ++ b) spent
  = match each a spent with
    | (yielded, Some e, spent') => (yielded, Some e, spent')
    | (yielded, None, spent') =>
        match each b spent' with
        | (more, ending, spent'') => (yielded ++ more, ending, spent'')
        end
    end.
Proof.
  induction a as [|c a IH]; intros spent; cbn [app each].
  - destruct (each b spent) as [[more ending] spent'']. reflexivity.
  - destruct (processChild c spent) as [[yielded [e|]] spent']; [reflexivity|].
    rewrite IH. destruct (each a spent') as [[y2 [e|]] s2]; [reflexivity|].
    destruct (each b s2) as [[more ending] s3]. rewrite app_assoc. reflexivity.
Qed.

(** X29. Arrays are rendered in order and nesting them changes nothing:
    an array yields what its first part yields followed by what the rest
    yields, and stops for good where a child throws. *)
Theorem arrays_flatten_in_order (a b : list child) (spent : list nat) :
  processChild (Items (a ++ b)) spent = processChild (Items [Items a; Items b]) spent
  /\ (forall yielded e spent',
        processChild (Items a) spent = (yielded, Some e, spent') ->
        processChild (Items (a ++ b)) spent = (yielded, Some e, spent')).
Proof.
  rewrite !processChild_Items, each_app. cbn [each]. rewrite !processChild_Items.
  split.
  - destruct (each a spent) as [[yielded [e|]] spent']; [reflexivity|].
    rewrite processChild_Items.
    destruct (each b spent') as [[more [e|]] spent'']; [reflexivity|].
    rewrite app_nil_r. reflexivity.
  - intros yielded e spent' Ha. rewrite Ha. reflexivity.
Qed.

Lemma spent_of_spec (g : nat) (spent : list nat) : spent_of g spent = true <-> In g spent.
Proof.
  unfold spent_of. rewrite existsb_exists. split.
  - intros (x & Hin & Heq). apply Nat.eqb_eq in Heq. subst x. exact Hin.
  - intros Hin. exists g. split; [exact Hin|apply Nat.eqb_refl].
Qed.

Lemma spent_grows (c : child) :
  forall spent g, In g spent -> In g (snd (processChild c spent)).
Proof.
  apply (child_induction
           (fun c => forall spent g, In g spent -> In g (snd (processChild c spent)))
           (fun body => forall spent g, In g spent -> In g (snd (generate body spent)))).
  - intros spent g H. exact H.
  - intros c' IH spent g H. apply IH. exact H.
  - intros e spent g H. exact H.
  - intros g0 body IH spent g H. cbn [processChild].
    destruct (spent_of g0 spent); [exact H|]. apply IH. right. exact H.
  - intros cs IH spent g H. rewrite processChild_Items.
    revert spent H. induction IH as [|c' cs Hc _ IHcs]; intros spent H; [exact H|].
    cbn [each]. specialize (Hc spent g H).
    destruct (processChild c' spent) as [[yielded [e|]] spent']; [exact Hc|].
    specialize (IHcs spent' Hc).
    destruct (each cs spent') as [[more ending] spent'']. exact IHcs.
  - intros c' IH spent g H. apply IH. exact H.
  - intros e spent g H. exact H.
  - intros text spent g H. exact H.
  - intros text failure spent g H. exact H.
  - intros tag attrs [html|] c' IH spent g H; cbn [generate]; [exact H|].
    specialize (IH spent g H).
    destruct (processChild c' spent) as [[yielded [e|]] spent']; exact IH.
Qed.

Lemma spent_grows_generator (body : generator) :
  forall spent g, In g spent -> In g (snd (generate body spent)).
Proof.
  destruct body as [text failure|tag attrs [html|] c]; intros spent g H;
    cbn [generate]; try exact H.
  pose proof (spent_grows c spent g H) as Hc.
  destruct (processChild c spent) as [[yielded [e|]] spent']; exact Hc.
Qed.

(** X30. An [Html] value yields only once: after it has been rendered, a
    second rendering of the same value yields nothing (and throws
    nothing), so a value placed twice among the children appears once. *)
Theorem html_value_renders_once (g : nat) (body : generator) (spent : list nat) :
  let first := processChild (Markup g body) spent in
  processChild (Markup g body) (snd first) = ([], None, snd first)
  /\ processChild (Items [Markup g body; Markup g body]) spent = first.
Proof.
  intros first.
  assert (Hspent : spent_of g (snd first) = true).
  { subst first. cbn [processChild].
    destruct (spent_of g spent) eqn:Hg; [exact Hg|].
    apply spent_of_spec. apply spent_grows_generator. left. reflexivity. }
  assert (Hagain : processChild (Markup g body) (snd first) = ([], None, snd first)).
  { cbn [processChild]. rewrite Hspent. reflexivity. }
  split; [exact Hagain|].
  rewrite processChild_Items. cbn [each]. fold first.
  destruct first as [[yielded [e|]] spent'] eqn:Hfirst; [reflexivity|].
  cbn [snd] in Hagain. rewrite Hagain. rewrite !app_nil_r. reflexivity.
Qed.

(** X12. An element made by [jsx] with text-only children and no
    [dangerouslySetInnerHTML] yields its opening tag with the attributes,
    the escaped texts and its closing tag; a void element yields no
    closing tag, and the empty tag of a fragment yields no tag at all. *)
Theorem element_of_text_children
        (split_whitespace : string -> list string) (g : nat) (tag : string)
        (props : list (string * prop)) (c : child) (spent : list nat) :
  spent_of g spent = false ->
  snd (scan_props split_whitespace props EmptyString None) = None ->
  text_only c = true ->
  let attrs := fst (scan_props split_whitespace props EmptyString None) in
  processChild (jsx split_whitespace g tag props c) spent
  = ((if String.eqb tag EmptyString then [] else [("<" ++ tag ++ attrs ++ ">")%string])
       ++ map escapeHtml (texts c)
       ++ (if String.eqb tag EmptyString || is_void tag then []
           else [("</" ++ tag ++ ">")%string]),
     None, g :: spent).
Proof.
  intros Hfresh Hdanger Htext attrs. subst attrs.
  unfold jsx. cbn [processChild generate]. rewrite Hfresh, Hdanger.
  rewrite (processChild_text_only c (g :: spent) Htext). reflexivity.
Qed.

Lemma element_of_text_children_witness :
  let split := fun s : string => [s] in
  let props := [("id", PString "row"); ("hidden", PBool false); ("title", PNull)] in
  spent_of 0 [] = false
  /\ text_only (Items [Shown "1 < 2"]) = true
  /\ processChild (jsx split 0 "td" props (Items [Shown "1 < 2"])) []
     = (["<td id=" ++ Suspense.quote ++ "row" ++ Suspense.quote ++ " >";
         "1 &lt; 2"; "</td>"]%string, None, [0])
  /\ processChild (jsx split 1 "br" [] Nothing) [] = (["<br>"], None, [1]).
Proof.
  cbv zeta. split; [reflexivity|]. split; [reflexivity|]. split.
  - rewrite (element_of_text_children (fun s : string => [s]) 0 "td"
               [("id", PString "row"); ("hidden", PBool false); ("title", PNull)]
               (Items [Shown "1 < 2"]) []); reflexivity.
  - reflexivity.
Defined.

End JsxFacts.

(* ================================================================== *)
(** ** Properties of the route files' names *)
(* ================================================================== *)

Module FsRoutesFacts.
Import Ascii FsRoutes.

Lemma concat_head (sep : string) (c : ascii) (x : string) (l : list string) :
  String.concat sep (String c x :: l) = String c (String.concat sep (x :: l)).
Proof. destruct l; reflexivity. Qed.

Lemma split_dots_join (s : string) : forall after_bracket,
  String.concat "." (fst (split_dots after_bracket s) :: snd (split_dots after_bracket s)) = s.
Proof.
  induction s as [|c rest IH]; intros after_bracket; cbn [split_dots].
  - reflexivity.
  - destruct (separates after_bracket c rest) eqn:Hsep; cbn [fst snd].
    + unfold separates in Hsep.
      apply andb_true_iff in Hsep. destruct Hsep as [Hsep _].
      apply andb_true_iff in Hsep. destruct Hsep as [Hc _].
      apply Ascii.eqb_eq in Hc. subst c.
      change (String.concat "." (EmptyString :: fst (split_dots false rest)
                                   :: snd (split_dots false rest)))
        with (String "."%char (String.concat "." (fst (split_dots false rest)
                                                    :: snd (split_dots false rest)))).
      rewrite IH. reflexivity.
    + rewrite concat_head, IH. reflexivity.
Qed.

(** X6. Splitting a route name into segments loses nothing: joining the
    segments with dots gives the name back, brackets or not. *)
Theorem segments_join (a : string) :
  String.concat "." (segments a) = a.
Proof. unfold segments. apply split_dots_join. Qed.

Lemma closes_without_bracket (rest : string) :
  Jsx.occurs "]"%char rest = false -> closes rest = false.
Proof.
  induction rest as [|c rest IH]; cbn [closes Jsx.occurs]; [reflexivity|].
  intros H. apply orb_false_iff in H. destruct H as [Hc Hrest].
  rewrite Hc. destruct (Ascii.eqb c "["%char); [reflexivity|]. apply IH. exact Hrest.
Qed.

Lemma split_dots_no_dot (s : string) :
  Jsx.occurs "["%char s = false -> Jsx.occurs "]"%char s = false ->
  Jsx.occurs "."%char (fst (split_dots false s)) = false
  /\ Forall (fun segment => Jsx.occurs "."%char segment = false) (snd (split_dots false s)).
Proof.
  induction s as [|c rest IH]; cbn [split_dots Jsx.occurs]; intros Hopen Hclose.
  - split; [reflexivity|constructor].
  - apply orb_false_iff in Hopen. destruct Hopen as [Hc Hopen].
    apply orb_false_iff in Hclose. destruct Hclose as [_ Hclose].
    destruct (IH Hopen Hclose) as [Hfirst Hrest].
    unfold separates. rewrite (closes_without_bracket rest Hclose), Hc.
    destruct (Ascii.eqb c "."%char) eqn:Hdot; cbn [negb andb fst snd Jsx.occurs].
    + split; [reflexivity|constructor; assumption].
    + rewrite Hdot, Hfirst. split; [reflexivity|exact Hrest].
Qed.

(** X7. In a name without brackets every dot separates: no segment holds
    a dot. *)
Theorem segments_without_brackets (a : string) :
  Jsx.occurs "["%char a = false -> Jsx.occurs "]"%char a = false ->
  Forall (fun segment => Jsx.occurs "."%char segment = false) (segments a).
Proof.
  intros Hopen Hclose. unfold segments.
  destruct (split_dots_no_dot a Hopen Hclose) as [Hfirst Hrest].
  constructor; assumption.
Qed.

Lemma segments_without_brackets_witness :
  Jsx.occurs "["%char "users.$id.edit" = false
  /\ Jsx.occurs "]"%char "users.$id.edit" = false
  /\ segments "users.$id.edit" = ["users"; "$id"; "edit"]
  /\ Forall (fun segment => Jsx.occurs "."%char segment = false) (segments "users.$id.edit").
Proof.
  split; [reflexivity|]. split; [reflexivity|]. split; [reflexivity|].
  apply segments_without_brackets; reflexivity.
Defined.

(** X8. Routes with more segments sort before routes with fewer,
    whatever the segments are. *)
Theorem more_segments_sort_first (a b : string) :
  List.length (segments b) < List.length (segments a) ->
  (bySpecificity a b < 0)%Z /\ (0 < bySpecificity b a)%Z.
Proof.
  intros Hlen. unfold bySpecificity.
  replace (List.length (segments a) =? List.length (segments b)) with false
    by (symmetry; apply Nat.eqb_neq; lia).
  replace (List.length (segments b) =? List.length (segments a)) with false
    by (symmetry; apply Nat.eqb_neq; lia).
  lia.
Qed.

Lemma more_segments_sort_first_witness :
  List.length (segments "$") < List.length (segments "blog.$slug")
  /\ (bySpecificity "blog.$slug" "$" < 0)%Z /\ (0 < bySpecificity "$" "blog.$slug")%Z.
Proof.
  split; [cbv; lia|]. apply more_segments_sort_first. cbv. lia.
Defined.

Lemma first_difference_same (l : list string) : first_difference l l = 0%Z.
Proof.
  induction l as [|x l IH]; cbn [first_difference]; [reflexivity|].
  rewrite String.eqb_refl. exact IH.
Qed.

(** X9. A route compared with itself gives 0 unless its name ends in a
    catch-all segment, where the comparator answers 1: a catch-all route
    sorts after every route with as many segments, itself included. *)
Theorem bySpecificity_on_itself (a b : string) :
  bySpecificity a a = (if endsWith a ".$" then 1 else 0)%Z
  /\ (List.length (segments a) = List.length (segments b) ->
      endsWith a ".$" = true -> bySpecificity a b = 1%Z).
Proof.
  unfold bySpecificity. split.
  - rewrite Nat.eqb_refl. destruct (endsWith a ".$"); [reflexivity|].
    apply first_difference_same.
  - intros Hlen Hends. rewrite Hlen, Nat.eqb_refl, Hends. reflexivity.
Qed.

Lemma first_difference_after_common (common : list string) :
  forall aSegment bSegment aRest bRest,
  aSegment <> bSegment ->
  first_difference (common ++ aSegment :: aRest) (common ++ bSegment :: bRest)
  = if startsWith aSegment "$" then 1%Z
    else if startsWith bSegment "$" then (-1)%Z
    else first_difference aRest bRest.
Proof.
  induction common as [|x common IH]; intros aSegment bSegment aRest bRest Hne;
    cbn [app first_difference].
  - rewrite (proj2 (String.eqb_neq _ _) Hne). reflexivity.
  - rewrite String.eqb_refl. apply IH. exact Hne.
Qed.

(** X10. Between routes with as many segments, neither ending in a
    catch-all, the first segment in which they differ decides when it is a
    parameter on one side: a parameter on the left sorts the left route
    later (also when the right one is a parameter too), a literal on the
    left against a parameter sorts it earlier. *)
Theorem first_differing_segment_decides
        (a b : string) (common : list string)
        (aSegment bSegment : string) (aRest bRest : list string) :
  segments a = common ++ aSegment :: aRest ->
  segments b = common ++ bSegment :: bRest ->
  List.length aRest = List.length bRest ->
  endsWith a ".$" = false -> endsWith b ".$" = false ->
  aSegment <> bSegment ->
  (startsWith aSegment "$" = true -> bySpecificity a b = 1%Z)
  /\ (startsWith aSegment "$" = false -> startsWith bSegment "$" = true ->
      bySpecificity a b = (-1)%Z /\ bySpecificity b a = 1%Z).
Proof.
  intros Ha Hb Hlen Hea Heb Hne.
  assert (Hsame : List.length (segments a) = List.length (segments b)).
  { rewrite Ha, Hb, !length_app. cbn [List.length]. lia. }
  unfold bySpecificity. rewrite Hsame, Nat.eqb_refl, Hea, Heb.
  rewrite Ha, Hb, !first_difference_after_common by congruence.
  split.
  - intros ->. reflexivity.
  - intros -> ->. split; reflexivity.
Qed.

Lemma first_differing_segment_decides_witness :
  segments "users.new" = ["users"] ++ "new" :: []
  /\ segments "users.$id" = ["users"] ++ "$id" :: []
  /\ bySpecificity "users.new" "users.$id" = (-1)%Z
  /\ bySpecificity "users.$id" "users.new" = 1%Z.
Proof.
  split; [reflexivity|]. split; [reflexivity|].
  apply (first_differing_segment_decides "users.new" "users.$id" ["users"] "new" "$id" [] []);
    try reflexivity.
  discriminate.
Defined.

Lemma append_empty (a : string) : (a ++ EmptyString)%string = a.
Proof.
  induction a as [|x a IH]; cbn [String.append]; [reflexivity|].
  rewrite IH. reflexivity.
Qed.

Lemma pattern_of_slash (segment : string) (rest : list string) :
  startsWith (pattern_of (segment :: rest)) "/" = true.
Proof.
  cbn [pattern_of].
  destruct (String.eqb _ "$"); [reflexivity|].
  destruct (startsWith _ "$"); [reflexivity|].
  destruct (startsWith segment "(" && endsWith segment ")");
    cbn [String.append startsWith]; reflexivity.
Qed.

(** X11. The pattern generated for a route file always starts with a
    slash, so it is never empty; for a name made of pathless segments only
    (every segment starts with an underscore, as in an index route) it is
    the root pattern. *)
Theorem pattern_is_rooted (routePath : string) :
  startsWith (generatePatternString routePath) "/" = true
  /\ (Forall (fun segment => startsWith segment "_" = true) (segments routePath) ->
      generatePatternString routePath = "/").
Proof.
  unfold generatePatternString. split.
  - destruct (filter _ (segments routePath)) as [|only [|second rest]].
    + reflexivity.
    + destruct (String.eqb only "$"); [reflexivity|apply pattern_of_slash].
    + apply pattern_of_slash.
  - intros Hall.
    replace (filter (fun value => negb (startsWith value "_")) (segments routePath))
      with (@nil string); [reflexivity|].
    symmetry. induction Hall as [|segment rest Hs _ IH]; cbn [filter]; [reflexivity|].
    rewrite Hs. exact IH.
Qed.

Example index_route_is_root :
  segments "_layout._index" = ["_layout"; "_index"]
  /\ generatePatternString "_layout._index" = "/".
Proof. split; reflexivity. Qed.

Lemma generate_is_pattern_of (routePath : string) :
  filter (fun value => negb (startsWith value "_")) (segments routePath) <> [] ->
  generatePatternString routePath
  = pattern_of (filter (fun value => negb (startsWith value "_")) (segments routePath)).
Proof.
  unfold generatePatternString.
  destruct (filter _ (segments routePath)) as [|only [|second rest]]; intros Hne.
  - contradiction.
  - destruct (String.eqb only "$") eqn:Honly; [|reflexivity].
    apply String.eqb_eq in Honly. subst only. reflexivity.
  - reflexivity.
Qed.

Lemma pattern_of_cut (before after : list string) :
  pattern_of (before ++ "$" :: after) = pattern_of (before ++ ["$"]).
Proof.
  induction before as [|segment before IH]; cbn [app pattern_of].
  - reflexivity.
  - rewrite IH. reflexivity.
Qed.

(** X13. Everything after a catch-all segment is ignored: two route names
    whose segments (pathless ones apart) agree up to a catch-all get the
    same pattern. *)
Theorem segments_after_catch_all_are_ignored
        (a b : string) (before afterA afterB : list string) :
  filter (fun value => negb (startsWith value "_")) (segments a) = before ++ "$" :: afterA ->
  filter (fun value => negb (startsWith value "_")) (segments b) = before ++ "$" :: afterB ->
  generatePatternString a = generatePatternString b.
Proof.
  intros Ha Hb.
  rewrite !generate_is_pattern_of.
  - rewrite Ha, Hb, (pattern_of_cut before afterA), (pattern_of_cut before afterB).
    reflexivity.
  - rewrite Hb. destruct before; discriminate.
  - rewrite Ha. destruct before; discriminate.
Qed.

Lemma segments_after_catch_all_are_ignored_witness :
  filter (fun value => negb (startsWith value "_")) (segments "files.$.raw")
  = ["files"] ++ "$" :: ["raw"]
  /\ filter (fun value => negb (startsWith value "_")) (segments "files.$")
     = ["files"] ++ "$" :: []
  /\ generatePatternString "files.$.raw" = "/files/*"
  /\ generatePatternString "files.$.raw" = generatePatternString "files.$".
Proof.
  split; [reflexivity|]. split; [reflexivity|]. split; [reflexivity|].
  apply (segments_after_catch_all_are_ignored "files.$.raw" "files.$" ["files"] ["raw"] []);
    reflexivity.
Defined.

Lemma pattern_of_literals (segs : list string) :
  Forall literal_segment segs ->
  pattern_of segs
  = match segs with
    | [] => EmptyString
    | _ => ("/" ++ String.concat "/" segs)%string
    end.
Proof.
  induction 1 as [|segment rest (_ & Hparam & Hopt) Hrest IH]; [reflexivity|].
  cbn [pattern_of]. rewrite Hopt. cbn [andb].
  destruct (String.eqb segment "$") eqn:Hdollar.
  { apply String.eqb_eq in Hdollar. subst segment. discriminate Hparam. }
  rewrite Hparam, IH.
  destruct rest as [|next rest]; cbn [String.concat String.append].
  - rewrite append_empty. reflexivity.
  - reflexivity.
Qed.

(** X14. A route name whose segments are all literal (none starts with an
    underscore, a dollar or an opening parenthesis) gets its segments
    joined by slashes after a leading slash. *)
Theorem literal_route_pattern (routePath : string) :
  Forall literal_segment (segments routePath) ->
  generatePatternString routePath = ("/" ++ String.concat "/" (segments routePath))%string.
Proof.
  intros Hall.
  assert (Hkeep : filter (fun value => negb (startsWith value "_")) (segments routePath)
                  = segments routePath).
  { induction Hall as [|segment rest (Hs & _) _ IH]; cbn [filter]; [reflexivity|].
    rewrite Hs. cbn [negb]. rewrite IH. reflexivity. }
  rewrite generate_is_pattern_of; rewrite Hkeep.
  - rewrite (pattern_of_literals _ Hall). unfold segments. reflexivity.
  - unfold segments. discriminate.
Qed.

Lemma literal_route_pattern_witness :
  segments "blog.posts" = ["blog"; "posts"]
  /\ generatePatternString "blog.posts" = "/blog/posts".
Proof.
  split; [reflexivity|].
  rewrite (literal_route_pattern "blog.posts").
  - reflexivity.
  - repeat constructor.
Defined.

End FsRoutesFacts.

(* ================================================================== *)
(** ** Further properties of the router *)
(* ================================================================== *)

Module RouterMore.
Import Platform Node Pump Router.

Section Dispatching.
Context {data : Type}.
Variable stringify : data -> option string.

Lemma find_route_none (routes : list (route data)) (urlStr : string) :
  (forall r, In r routes -> exec (fst r) urlStr = None) ->
  find_route routes urlStr = None.
Proof.
  intros Hnone.
  rewrite <- (app_nil_r routes). rewrite (RouterFacts.find_route_skips routes [] urlStr Hnone).
  reflexivity.
Qed.

(** X15. When no pattern of the table matches the URL, the empty table
    included, [handle] answers 404 with an empty body, logs nothing and
    starts no pump, whatever the method and the headers of the request. *)
Theorem unmatched_request_is_not_found
        (routes : list (route data)) (req : Request) (env : environment) :
  (forall r, In r routes -> exec (fst r) (url req) = None) ->
  handle stringify routes req env = reply not_found.
Proof.
  intros Hnone. unfold handle. rewrite (find_route_none routes (url req) Hnone). reflexivity.
Qed.

Lemma leaf_of_last (outer : list (fragment data)) (leaf : fragment data) :
  leaf_of (outer ++ [leaf]) = Some (frag_mod leaf).
Proof.
  unfold leaf_of. rewrite length_app. cbn [List.length].
  replace (List.length outer + 1 - 1) with (List.length outer) by lia.
  rewrite nth_error_app2 by lia. rewrite Nat.sub_diag. reflexivity.
Qed.

(** X16. For a request that is not GET, and for a GET request whose leaf
    has no component, only the leaf counts: the enclosing fragments (their
    loaders, [headers] functions and components) have no part in the
    answer. *)
Theorem data_answer_depends_on_leaf_only
        (outer : list (fragment data)) (leaf : fragment data)
        (c : ctx) (env : environment) :
  is_GET (request c) = false \/ default (frag_mod leaf) = None ->
  dispatch stringify (outer ++ [leaf]) c env = dispatch stringify [leaf] c env.
Proof.
  intros Hdata. unfold dispatch.
  rewrite leaf_of_last. change (leaf_of [leaf]) with (Some (frag_mod leaf)).
  cbn [chain].
  destruct (is_GET (request c)) eqn:HGET.
  - destruct Hdata as [Hdata|Hdata]; [discriminate|]. rewrite Hdata. reflexivity.
  - reflexivity.
Qed.

(** X17. What is thrown on the data path and is not a [Response] is
    answered 500 with no header and no body; the message of an [Error] is
    the one line logged, another thrown value logs nothing. *)
Theorem data_handler_failure_is_500
        (routes : list (route data)) (req : Request) (env : environment)
        (frags : list (fragment data)) (groups : list (string * string))
        (f : ctx -> call_result (value data)) (e : thrown) :
  find_route routes (url req) = Some (frags, groups) ->
  let fragments := if has (request_headers req) "fx-request" then tl frags else frags in
  let c := {| request := req; params := groups |} in
  let leaf := leaf_of fragments in
  (is_GET req = true /\ chain leaf default = None /\ chain leaf loader = Some f)
  \/ (is_GET req = false /\ chain leaf action = Some f) ->
  await (f c) = Throw e ->
  (forall r, e <> ThrownResponse r) ->
  handle stringify routes req env
  = {| response := {| status := 500; header_list := []; body := BodyNull |};
       console := match e with ThrownError message => [message] | _ => [] end;
       waitUntil := None |}.
Proof.
  intros Hfind fragments c leaf Hpath Hthrow Hnot.
  unfold handle. rewrite Hfind. unfold serve. fold fragments. fold c.
  unfold dispatch. fold leaf. simpl request.
  assert (Hd : bind (dataResponse stringify f c) (fun r => Ok (r, @None pump_run)) = Throw e).
  { unfold dataResponse. rewrite Hthrow. reflexivity. }
  destruct Hpath as [(HGET & Hdefault & Hl)|(HGET & Ha)].
  - rewrite HGET, Hdefault, Hl, Hd.
    destruct e as [r|message|v]; [exfalso; apply (Hnot r); reflexivity| |]; reflexivity.
  - rewrite HGET. cbn [negb]. rewrite Ha, Hd.
    destruct e as [r|message|v]; [exfalso; apply (Hnot r); reflexivity| |]; reflexivity.
Qed.

(** X18. [handle] hands a pump to [waitUntil] only for a GET request that
    it answers 200 with the pump's channel as body: requests that are not
    GET, data answers, 404 and 500 never start one. *)
Theorem pump_only_for_GET_documents
        (routes : list (route data)) (req : Request) (env : environment)
        (run : pump_run) :
  waitUntil (handle stringify routes req env) = Some run ->
  is_GET req = true
  /\ status (response (handle stringify routes req env)) = 200
  /\ body (response (handle stringify routes req env)) = BodyStream (channel (writer run)).
Proof.
  unfold handle.
  destruct (find_route routes (url req)) as [[frags groups]|]; [|discriminate].
  unfold serve, dispatch. simpl request.
  set (fragments := if has (request_headers req) "fx-request" then tl frags else frags).
  set (c := {| request := req; params := groups |}).
  destruct (is_GET req) eqn:HGET.
  - destruct (chain (leaf_of fragments) default) as [Component|].
    + unfold routeResponse.
      destruct (run_loaders fragments c) as [loaders|[r|m|v]]; simpl; try discriminate.
      destruct (mergeFragmentHeaders _ c fragments loaders) as [hs|[r|m|v]]; simpl;
        try discriminate.
      destruct (compose fragments loaders) as [node|[r|m|v]]; simpl; try discriminate.
      intros [= <-]. auto.
    + destruct (chain (leaf_of fragments) loader) as [l|]; simpl; [|discriminate].
      destruct (dataResponse stringify l c) as [r|[r|m|v]]; simpl; discriminate.
  - simpl. destruct (chain (leaf_of fragments) action) as [a|]; simpl; [|discriminate].
    destruct (dataResponse stringify a c) as [r|[r|m|v]]; simpl; discriminate.
Qed.

End Dispatching.

Section Composing.
Context {data : Type}.

(** X19. The loader results are index-aligned with the chain: slot [i]
    holds what fragment [i]'s loader resolved to, [undefined] for a
    fragment without loader, whatever the order in which the loaders
    settled; there are as many results as fragments. *)
Theorem loader_results_are_index_aligned
        (fragments : list (fragment data)) (c : ctx) (loaders : list (value data)) :
  run_loaders fragments c = Ok loaders ->
  List.length loaders = List.length fragments
  /\ forall i frag, nth_error fragments i = Some frag ->
       match loader (frag_mod frag) with
       | Some l => await (l c) = Ok (nth i loaders Undefined)
       | None => nth i loaders Undefined = Undefined
       end.
Proof.
  intros Hrun. apply RouterFacts.run_loaders_aligned in Hrun.
  induction Hrun as [|frag v fragments loaders Hv _ [IHlen IH]].
  - split; [reflexivity|]. intros [|i] frag; discriminate.
  - split; [cbn [List.length]; rewrite IHlen; reflexivity|].
    intros [|i] frag'; cbn [nth_error nth].
    + intros [= <-]. exact Hv.
    + apply IH.
Qed.

Lemma compose_from_inner_throw (outer : list (fragment data)) :
  forall i inner loaders e,
  compose_from (i + List.length outer) inner loaders = Throw e ->
  compose_from i (outer ++ inner) loaders = Throw e.
Proof.
  induction outer as [|frag outer IH]; intros i inner loaders e Hinner;
    cbn [app compose_from List.length] in *.
  - rewrite Nat.add_0_r in Hinner. exact Hinner.
  - rewrite (IH (S i) inner loaders e); [reflexivity|].
    replace (S i + List.length outer) with (i + S (List.length outer)) by lia.
    exact Hinner.
Qed.

(** X20. The document is composed from the leaf outwards: when the leaf's
    component throws, composing throws that value, whatever the enclosing
    fragments are. *)
Theorem throwing_leaf_component_wins
        (outer : list (fragment data)) (leaf : fragment data)
        (loaders : list (value data)) (Component : renderer data) (e : thrown) :
  default (frag_mod leaf) = Some Component ->
  Component (nth (List.length outer) loaders Undefined) (into_string EmptyString) = Throws e ->
  compose (outer ++ [leaf]) loaders = Throw e.
Proof.
  intros Hdefault Hthrows. unfold compose.
  apply compose_from_inner_throw. cbn [compose_from bind Nat.add].
  unfold render_fragment. rewrite Hdefault, Hthrows. reflexivity.
Qed.

Lemma merge_from_throw (c : ctx) (loaders : list (value data)) (before : list (fragment data)) :
  forall i hs frag after f e,
  (forall k b g, nth_error before k = Some b -> headers (frag_mod b) = Some g ->
                 exists h, await (g c (nth (i + k) loaders Undefined)) = Ok h) ->
  headers (frag_mod frag) = Some f ->
  await (f c (nth (i + List.length before) loaders Undefined)) = Throw e ->
  merge_from i hs c (before ++ frag :: after) loaders = Throw e.
Proof.
  induction before as [|b before IH]; intros i hs frag after f e Hreturns Hf Hthrow;
    cbn [app merge_from List.length] in *.
  - rewrite Nat.add_0_r in Hthrow. rewrite Hf, Hthrow. reflexivity.
  - assert (Hrest : forall k b' g, nth_error before k = Some b' ->
                      headers (frag_mod b') = Some g ->
                      exists h, await (g c (nth (S i + k) loaders Undefined)) = Ok h).
    { intros k b' g Hk Hg. replace (S i + k) with (i + S k) by lia.
      apply (Hreturns (S k) b' g); assumption. }
    assert (Hnext : await (f c (nth (S i + List.length before) loaders Undefined)) = Throw e).
    { replace (S i + List.length before) with (i + S (List.length before)) by lia.
      exact Hthrow. }
    destruct (headers (frag_mod b)) as [g|] eqn:Hg.
    + destruct (Hreturns 0 b g eq_refl Hg) as [h Hh].
      rewrite Nat.add_0_r in Hh. rewrite Hh. cbn [bind].
      destruct h; eapply IH; eassumption.
    + eapply IH; eassumption.
Qed.

(** X21. The [headers] functions are called in chain order and the first
    one to throw ends the merge with what it threw: the fragments after
    it are not consulted and no headers are produced. *)
Theorem throwing_headers_function_ends_merge
        (c : ctx) (loaders : list (value data)) (init : Headers)
        (before : list (fragment data)) (frag : fragment data)
        (after : list (fragment data)) (f : headers_fn data) (e : thrown) :
  (forall k b g, nth_error before k = Some b -> headers (frag_mod b) = Some g ->
                 exists h, await (g c (nth k loaders Undefined)) = Ok h) ->
  headers (frag_mod frag) = Some f ->
  await (f c (nth (List.length before) loaders Undefined)) = Throw e ->
  mergeFragmentHeaders init c (before ++ frag :: after) loaders = Throw e.
Proof.
  intros Hreturns Hf Hthrow. unfold mergeFragmentHeaders.
  eapply merge_from_throw; eauto.
Qed.

End Composing.

Lemma unmatched_request_is_not_found_witness :
  let req := Scenarios.post "https://app.test/missing" in
  find_route Scenarios.routes (url req) = None
  /\ handle Scenarios.to_json Scenarios.routes req Scenarios.calm = reply not_found.
Proof.
  cbv zeta. split; [reflexivity|].
  apply unmatched_request_is_not_found.
  intros r Hr. unfold Scenarios.routes in Hr.
  repeat (destruct Hr as [<-|Hr]; [reflexivity|]). contradiction.
Defined.

Lemma data_answer_depends_on_leaf_only_witness :
  let c := {| request := Scenarios.post "https://app.test/api/hello"; params := [] |} in
  is_GET (request c) = false
  /\ dispatch Scenarios.to_json ([Scenarios.document] ++ [Scenarios.api_leaf]) c Scenarios.calm
     = dispatch Scenarios.to_json [Scenarios.api_leaf] c Scenarios.calm.
Proof.
  cbv zeta. split; [reflexivity|].
  apply data_answer_depends_on_leaf_only. left. reflexivity.
Defined.

Lemma data_handler_failure_is_500_witness :
  let req := Scenarios.post "https://app.test/orders" in
  find_route MoreScenarios.orders_routes (url req)
  = Some ([Scenarios.document; MoreScenarios.failing_action_leaf], [])
  /\ handle Scenarios.to_json MoreScenarios.orders_routes req Scenarios.calm
     = {| response := {| status := 500; header_list := []; body := BodyNull |};
          console := ["db down"]; waitUntil := None |}.
Proof.
  cbv zeta. split; [reflexivity|].
  apply (data_handler_failure_is_500 Scenarios.to_json MoreScenarios.orders_routes
           (Scenarios.post "https://app.test/orders") Scenarios.calm
           [Scenarios.document; MoreScenarios.failing_action_leaf] []
           (fun _ => ReturnsPromise {| settles_at := 1;
                                       outcome := Rejected (ThrownError "db down") |})
           (ThrownError "db down")).
  - reflexivity.
  - right. split; reflexivity.
  - reflexivity.
  - discriminate.
Defined.

Lemma pump_only_for_GET_documents_witness :
  let req := Scenarios.get "https://app.test/users/42" in
  let answer := handle Scenarios.to_json Scenarios.routes req Scenarios.calm in
  exists run,
    waitUntil answer = Some run
    /\ is_GET req = true
    /\ status (response answer) = 200
    /\ body (response answer) = BodyStream (channel (writer run)).
Proof.
  cbv zeta. eexists. split; [reflexivity|].
  apply (pump_only_for_GET_documents Scenarios.to_json Scenarios.routes
           (Scenarios.get "https://app.test/users/42") Scenarios.calm).
  reflexivity.
Defined.

Lemma loader_results_are_index_aligned_witness :
  let chain := [Scenarios.document; Scenarios.user_leaf] in
  let loaders := [Undefined; Plain (Some "42")] in
  run_loaders chain MoreScenarios.at_users_42 = Ok loaders
  /\ List.length loaders = List.length chain
  /\ forall i frag, nth_error chain i = Some frag ->
       match loader (frag_mod frag) with
       | Some l => await (l MoreScenarios.at_users_42) = Ok (nth i loaders Undefined)
       | None => nth i loaders Undefined = Undefined
       end.
Proof.
  cbv zeta. split; [reflexivity|].
  apply loader_results_are_index_aligned. reflexivity.
Defined.

Lemma throwing_leaf_component_wins_witness :
  default (frag_mod MoreScenarios.throwing_component_leaf)
  = Some (fun _ _ => Throws (ThrownError "render"))
  /\ compose ([Scenarios.document] ++ [MoreScenarios.throwing_component_leaf])
             [Undefined; Undefined]
     = Throw (ThrownError "render").
Proof.
  split; [reflexivity|].
  apply (throwing_leaf_component_wins [Scenarios.document]
           MoreScenarios.throwing_component_leaf [Undefined; Undefined]
           (fun _ _ => Throws (ThrownError "render")) (ThrownError "render"));
    reflexivity.
Defined.

Lemma throwing_headers_function_ends_merge_witness :
  headers (frag_mod MoreScenarios.throwing_headers_leaf)
  = Some (fun _ _ => Throws (ThrownError "headers"))
  /\ mergeFragmentHeaders [("Content-Type", "text/html")] MoreScenarios.at_users_42
       ([Scenarios.document] ++ MoreScenarios.throwing_headers_leaf :: [Scenarios.user_leaf])
       [Undefined; Undefined; Undefined]
     = Throw (ThrownError "headers").
Proof.
  split; [reflexivity|].
  apply (throwing_headers_function_ends_merge MoreScenarios.at_users_42
           [Undefined; Undefined; Undefined] [("Content-Type", "text/html")]
           [Scenarios.document] MoreScenarios.throwing_headers_leaf [Scenarios.user_leaf]
           (fun _ _ => Throws (ThrownError "headers")) (ThrownError "headers")).
  - intros [|[|k]] b g Hk Hg; simpl in Hk; try discriminate.
    injection Hk as <-. injection Hg as <-. eexists. reflexivity.
  - reflexivity.
  - reflexivity.
Defined.

End RouterMore.

(* ================================================================== *)
(** ** Further properties of the pump *)
(* ================================================================== *)

Module PumpMore.
Import Platform Node Pump.

Lemma try_block_is_forward (reader : Reader) (w : Writer) :
  match write w preamble with
  | (w1, Ok _) => forward (queued reader) (read_error reader) w1
  | (w1, Throw e) => (w1, Throw e)
  end
  = forward (preamble :: queued reader) (read_error reader) w.
Proof. reflexivity. Qed.

Lemma forward_failing (ending : option thrown) (reason : thrown) :
  forall chunks k sent log,
  k < List.length chunks ->
  forward chunks ending
          {| channel := {| delivered := sent; state := Writable |};
             client := FailsAfter k reason; ops := log |}
  = ({| channel := {| delivered := sent ++ firstn k chunks; state := Errored |};
        client := FailsAfter 0 reason;
        ops := log ++ map OpWrite (firstn (S k) chunks) |},
     Throw reason).
Proof.
  induction chunks as [|chunk rest IH]; intros k sent log Hk; cbn [List.length] in Hk.
  - lia.
  - destruct k as [|k]; cbn [forward write channel state client ops delivered].
    + cbn [firstn map]. rewrite app_nil_r. reflexivity.
    + rewrite IH by lia. cbn [firstn map]. rewrite <- !app_assoc. reflexivity.
Qed.

(** X22. When the client goes away after taking [n] chunks (the preamble
    counted), the pump attempts exactly one more write and then stops
    reading: the client holds the first [n] chunks and the channel is
    errored. The write rejects with the client's reason, which leaves the
    [try] block (the block is [forward] on the preamble followed by the
    document); the call of [close] in the [finally] block is still made,
    rejects with the platform's own [TypeError], and it is that rejection,
    not the client's reason, that the pump's promise carries. *)
Theorem client_gone_stops_the_pump (reader : Reader) (n : nat) (reason : thrown) :
  n <= List.length (queued reader) ->
  let run := startStreaming reader (getWriter (FailsAfter n reason)) in
  channel (writer run)
  = {| delivered := firstn n (preamble :: queued reader); state := Errored |}
  /\ ops (writer run) = map OpWrite (firstn (S n) (preamble :: queued reader)) ++ [OpClose]
  /\ snd (forward (preamble :: queued reader) (read_error reader)
                  (getWriter (FailsAfter n reason))) = Throw reason
  /\ completion run = Throw stream_error.
Proof.
  intros Hn run. subst run. unfold startStreaming.
  rewrite try_block_is_forward. unfold getWriter.
  rewrite forward_failing by (cbn [List.length]; lia).
  cbn [fst snd close channel state client ops delivered writer completion app].
  split; [reflexivity|]. split; [reflexivity|]. split; reflexivity.
Qed.

Lemma client_gone_stops_the_pump_witness :
  let reader := {| queued := ["<html>"; "<p>a</p>"; "</html>"]; read_error := None |} in
  let run := startStreaming reader (getWriter (FailsAfter 2 (ThrownError "client closed"))) in
  2 <= List.length (queued reader)
  /\ channel (writer run) = {| delivered := [preamble; "<html>"]; state := Errored |}
  /\ ops (writer run) = [OpWrite preamble; OpWrite "<html>"; OpWrite "<p>a</p>"; OpClose]
  /\ snd (forward (preamble :: queued reader) (read_error reader)
                  (getWriter (FailsAfter 2 (ThrownError "client closed"))))
     = Throw (ThrownError "client closed")
  /\ completion run = Throw (ThrownError "TypeError: stream is not writable").
Proof.
  cbv zeta. split; [cbv; lia|].
  apply (client_gone_stops_the_pump
           {| queued := ["<html>"; "<p>a</p>"; "</html>"]; read_error := None |}
           2 (ThrownError "client closed")).
  cbv. lia.
Defined.

Lemma concat_nothing_between (x : string) (xs : list string) :
  String.concat EmptyString (x :: xs) = (x ++ String.concat EmptyString xs)%string.
Proof.
  destruct xs as [|y ys]; cbn [String.concat String.append]; [|reflexivity].
  symmetry. apply FsRoutesFacts.append_empty.
Qed.

(** X23. Streaming and materialising agree: for a document whose stream
    does not fail and a client that takes every chunk, the chunks the
    client receives, put together, are the preamble followed by the string
    [toPromise] gives for the document; the channel ends closed and the
    pump's promise fulfils. *)
Theorem streamed_body_is_the_materialised_document
        (node : Html) (consumed : nat) (html : string) :
  toPromise node = Ok html ->
  let run := startStreaming (toReadableStream node consumed) (getWriter Healthy) in
  String.concat EmptyString (delivered (channel (writer run))) = (preamble ++ html)%string
  /\ state (channel (writer run)) = Closed
  /\ completion run = Ok tt.
Proof.
  unfold toPromise, toReadableStream.
  destruct (failure node) as [e|]; [discriminate|].
  intros H. injection H as <-. cbv zeta. unfold startStreaming, getWriter.
  cbn [write channel state client ops delivered queued read_error app].
  rewrite PumpFacts.forward_healthy.
  cbn [fst snd close channel state client ops delivered writer completion app].
  split; [apply concat_nothing_between|]. split; reflexivity.
Qed.

Lemma streamed_body_is_the_materialised_document_witness :
  let node := Scenarios.wrap "<html>" "</html>" (into_string "<p>user</p>") in
  let run := startStreaming (toReadableStream node 0) (getWriter Healthy) in
  toPromise node = Ok "<html><p>user</p></html>"
  /\ String.concat EmptyString (delivered (channel (writer run)))
     = "<!doctype html><html><p>user</p></html>"
  /\ state (channel (writer run)) = Closed
  /\ completion run = Ok tt.
Proof.
  cbv zeta. split; [reflexivity|].
  apply (streamed_body_is_the_materialised_document
           (Scenarios.wrap "<html>" "</html>" (into_string "<p>user</p>")) 0
           "<html><p>user</p></html>").
  reflexivity.
Defined.

End PumpMore.

(* ================================================================== *)
(** ** Further properties of the suspense registry *)
(* ================================================================== *)

Module SuspenseMore.
Import Platform Node Suspense.

Lemma in_keys_set (m : Map) key p id :
  In id (keys (set m key p)) -> In id (keys m) \/ id = key.
Proof.
  rewrite SuspenseFacts.keys_set.
  destruct (existsb _ _); [auto|].
  intros Hid. apply in_app_or in Hid. destruct Hid as [?|[<-|[]]]; auto.
Qed.

Lemma suspense_id_injective (a b : string) :
  ("suspense-" ++ a)%string = ("suspense-" ++ b)%string -> a = b.
Proof. cbn [String.append]. intros H. injection H as H. exact H. Qed.

Lemma nth_error_update_in {A} (l : list A) i x y :
  nth_error l i = Some y -> In x (update l i x).
Proof.
  intros H. apply (nth_error_In _ i). eapply SuspenseFacts.nth_error_update_same. exact H.
Qed.

Section Registry.
Variable randomUUID : nat -> string.

(** *** Invariants of the process *)

Lemma step_targets_declared (s : process) (e : event) :
  sound s -> targets_declared s -> targets_declared (step randomUUID s e).
Proof.
  intros [Hwk Hdecl] [Hem Hrace].
  destruct e as [r0 now children|r0|g now|g]; cbn [step].
  - split; cbn [emitted declared generators].
    + intros r p Hin. destruct (Hem r p Hin) as [declarer Hd].
      exists declarer. apply in_or_app. left. exact Hd.
    + intros d templateId p resumed id html Hin Hpos Hout.
      destruct (Hrace d templateId p resumed id html Hin Hpos Hout) as [declarer Hd].
      exists declarer. apply in_or_app. left. exact Hd.
  - destruct (Resolve (module_state s)); [|split; assumption].
    split; cbn [emitted declared generators]; [exact Hem|].
    intros d templateId p resumed id html Hin Hpos Hout.
    apply in_app_or in Hin. destruct Hin as [Hin|[<-|[]]]; [|discriminate].
    eapply Hrace; eassumption.
  - destruct (nth_error (generators s) g) as [d0|] eqn:Hg; [|split; assumption].
    destruct (position d0) eqn:Hpos0; try (split; assumption).
    destruct (suspended (module_state s)) as [|[k0 p0] m] eqn:Hm.
    + split; cbn [emitted declared generators]; [exact Hem|].
      intros d templateId p resumed id html Hin Hpos Hout.
      apply SuspenseFacts.in_update in Hin. destruct Hin as [->|Hin]; [discriminate|].
      eapply Hrace; eassumption.
    + destruct (Promise_race now (values ((k0, p0) :: m))) as [[q resumed0]|] eqn:Hq;
        [|split; assumption].
      split; cbn [emitted declared generators]; [exact Hem|].
      intros d templateId p resumed id html Hin Hpos Hout.
      apply SuspenseFacts.in_update in Hin. destruct Hin as [->|Hin];
        [|eapply Hrace; eassumption].
      cbn [position] in Hpos. injection Hpos as _ <- _.
      apply SuspenseFacts.race_in in Hq.
      destruct (SuspenseFacts.in_values _ _ Hq) as [k Hk].
      assert (id = k).
      { apply (proj2 (proj1 (SuspenseFacts.well_keyed_spec _) Hwk) k q id html Hk Hout). }
      subst id. apply Hdecl. eapply SuspenseFacts.in_keys. exact Hk.
  - destruct (nth_error (generators s) g) as [d0|] eqn:Hg; [|split; assumption].
    destruct (position d0) as [|templateId0 q resumed0| |] eqn:Hpos0; try (split; assumption).
    destruct (outcome q) as [[id0 element0]|e0] eqn:Hout0.
    + split; cbn [emitted declared generators].
      * intros r p Hin. apply in_app_or in Hin.
        destruct Hin as [Hin|[[= <- <-]|[]]]; [apply (Hem r p Hin)|].
        cbn [to]. apply (Hrace d0 templateId0 q resumed0 id0 element0);
          [eapply nth_error_In; exact Hg|exact Hpos0|exact Hout0].
      * intros d templateId p resumed id html Hin Hpos Hout.
        apply SuspenseFacts.in_update in Hin. destruct Hin as [->|Hin]; [discriminate|].
        eapply Hrace; eassumption.
    + split; cbn [emitted declared generators]; [exact Hem|].
      intros d templateId p resumed id html Hin Hpos Hout.
      apply SuspenseFacts.in_update in Hin. destruct Hin as [->|Hin]; [discriminate|].
      eapply Hrace; eassumption.
Qed.

Lemma step_drawn (s : process) (e : event) :
  drawn (module_state s) <= drawn (module_state (step randomUUID s e)).
Proof.
  destruct e as [r0 now children|r0|g now|g]; cbn [step].
  - cbn. lia.
  - destruct (Resolve (module_state s)); cbn; lia.
  - destruct (nth_error (generators s) g) as [d0|]; [|lia].
    destruct (position d0); try lia.
    destruct (suspended (module_state s)) as [|entry m]; [cbn; lia|].
    destruct (Promise_race now (values (entry :: m))) as [[q resumed0]|]; cbn; lia.
  - destruct (nth_error (generators s) g) as [d0|]; [|lia].
    destruct (position d0) as [|templateId0 q resumed0| |]; try lia.
    destruct (outcome q) as [[id0 element0]|e0]; cbn; lia.
Qed.

Lemma step_declared (s : process) (e : event) :
  match e with
  | RenderSuspense r now children =>
      declared (step randomUUID s e)
      = declared s ++ [(r, ("suspense-" ++ randomUUID (drawn (module_state s)))%string)]
      /\ drawn (module_state (step randomUUID s e)) = S (drawn (module_state s))
  | _ => declared (step randomUUID s e) = declared s
  end.
Proof.
  destruct e as [r0 now children|r0|g now|g]; cbn [step].
  - split; reflexivity.
  - destruct (Resolve (module_state s)); reflexivity.
  - apply SuspenseFacts.pull_effect.
  - destruct (nth_error (generators s) g) as [d0|]; [|reflexivity].
    destruct (position d0) as [|templateId0 q resumed0| |]; try reflexivity.
    destruct (outcome q) as [[id0 element0]|e0]; reflexivity.
Qed.

Lemma step_numbered (s : process) (e : event) :
  numbered randomUUID s -> numbered randomUUID (step randomUUID s e).
Proof.
  intros Hn r id Hin.
  pose proof (step_drawn s e) as Hle.
  pose proof (step_declared s e) as Hd.
  assert (Hold : In (r, id) (declared s) ->
                 exists i, i < drawn (module_state (step randomUUID s e))
                           /\ id = ("suspense-" ++ randomUUID i)%string).
  { intros H. destruct (Hn r id H) as (i & Hi & Hid). exists i. split; [lia|exact Hid]. }
  destruct e as [r0 now children|r0|g now|g];
    try (rewrite Hd in Hin; apply Hold; exact Hin).
  destruct Hd as [Hd Hdrawn]. rewrite Hd in Hin. apply in_app_or in Hin.
  destruct Hin as [Hin|[[= <- <-]|[]]]; [apply Hold; exact Hin|].
  exists (drawn (module_state s)). split; [rewrite Hdrawn; lia|reflexivity].
Qed.

Section Unique.
Hypothesis unique : forall i j, randomUUID i = randomUUID j -> i = j.

Lemma step_once (s : process) (e : event) :
  sound s -> targets_declared s -> numbered randomUUID s -> once s ->
  once (step randomUUID s e).
Proof.
  intros [Hwk Hdecl] [Hem Hrace] Hn Honce.
  destruct e as [r0 now children|r0|g now|g]; cbn [step].
  - intros d Hin. cbn [generators] in Hin.
    destruct (Honce d Hin) as (Hnd & Hstream & Hout & Hnext).
    cbn [emitted declared module_state register snd fst suspended].
    split; [exact Hnd|]. split; [exact Hstream|]. split; [|exact Hnext].
    intros id Hid. destruct (Hout id Hid) as [Hnot [declarer Hdeclarer]].
    split; [|exists declarer; apply in_or_app; left; exact Hdeclarer].
    intros Hkey. apply in_keys_set in Hkey. destruct Hkey as [Hkey| ->]; [tauto|].
    destruct (Hn _ _ Hdeclarer) as (i & Hi & Heq).
    apply suspense_id_injective, unique in Heq. lia.
  - destruct (Resolve (module_state s)); [|exact Honce].
    intros d Hin. cbn [generators] in Hin.
    cbn [emitted declared module_state].
    apply in_app_or in Hin. destruct Hin as [Hin|[<-|[]]]; [apply Honce; exact Hin|].
    cbn [yielded map position]. split; [constructor|].
    split; [intros p []|]. split; [intros id []|]. discriminate.
  - destruct (nth_error (generators s) g) as [d0|] eqn:Hg; [|exact Honce].
    destruct (position d0) eqn:Hpos0; try exact Honce.
    pose proof (Honce d0 (nth_error_In _ _ Hg)) as (Hnd0 & Hstream0 & Hout0 & _).
    destruct (suspended (module_state s)) as [|[k0 p0] m] eqn:Hm.
    + intros d Hin. cbn [generators] in Hin.
      cbn [emitted declared module_state]. rewrite Hm.
      apply SuspenseFacts.in_update in Hin. destruct Hin as [->|Hin].
      * cbn [yielded owner position].
        split; [exact Hnd0|]. split; [exact Hstream0|]. split; [exact Hout0|]. discriminate.
      * specialize (Honce d Hin). rewrite Hm in Honce. exact Honce.
    + destruct (Promise_race now (values ((k0, p0) :: m))) as [[q resumed0]|] eqn:Hq;
        [|exact Honce].
      intros d Hin. cbn [generators] in Hin.
      cbn [emitted declared module_state suspended].
      apply SuspenseFacts.in_update in Hin. destruct Hin as [->|Hin].
      * cbn [yielded owner position].
        split; [exact Hnd0|]. split; [exact Hstream0|]. split; [exact Hout0|].
        intros templateId p resumed id html [= _ <- _] Hout Hid.
        apply SuspenseFacts.race_in in Hq.
        destruct (SuspenseFacts.in_values _ _ Hq) as [k Hk].
        assert (id = k).
        { apply (proj2 (proj1 (SuspenseFacts.well_keyed_spec _) Hwk) k q id html Hk Hout). }
        subst id. apply (proj1 (Hout0 k Hid)). eapply SuspenseFacts.in_keys. exact Hk.
      * specialize (Honce d Hin). rewrite Hm in Honce. exact Honce.
  - destruct (nth_error (generators s) g) as [d0|] eqn:Hg; [|exact Honce].
    destruct (position d0) as [|templateId0 q resumed0| |] eqn:Hpos0; try exact Honce.
    pose proof (Honce d0 (nth_error_In _ _ Hg)) as (Hnd0 & Hstream0 & Hout0 & Hnext0).
    destruct (outcome q) as [[id0 element0]|e0] eqn:Houtcome.
    + intros d Hin. cbn [generators] in Hin.
      cbn [emitted declared module_state suspended].
      apply SuspenseFacts.in_update in Hin. destruct Hin as [->|Hin].
      * cbn [yielded owner position]. rewrite map_app. cbn [map to].
        split; [|split; [|split; [|discriminate]]].
        -- apply NoDup_app; [exact Hnd0|repeat constructor; intros []|].
           intros id Hid [<-|[]].
           apply (Hnext0 templateId0 q resumed0 id0 element0 Hpos0 Houtcome Hid).
        -- intros p Hp. apply in_app_or in Hp. apply in_or_app.
           destruct Hp as [Hp|[<-|[]]]; [left; apply Hstream0; exact Hp|right; left; reflexivity].
        -- intros id Hid. apply in_app_or in Hid. destruct Hid as [Hid|[<-|[]]].
           ++ destruct (Hout0 id Hid) as [Hnot Hdeclared]. split; [|exact Hdeclared].
              intros Hkey. apply Hnot. eapply SuspenseFacts.keys_delete. exact Hkey.
           ++ split; [apply SuspenseFacts.delete_removes|].
              apply (Hrace d0 templateId0 q resumed0 id0 element0);
                [eapply nth_error_In; exact Hg|exact Hpos0|exact Houtcome].
      * destruct (Honce d Hin) as (Hnd & Hstream & Hout & Hnext).
        split; [exact Hnd|]. split; [|split; [|exact Hnext]].
        -- intros p Hp. apply in_or_app. left. apply Hstream. exact Hp.
        -- intros id Hid. destruct (Hout id Hid) as [Hnot Hdeclared]. split; [|exact Hdeclared].
           intros Hkey. apply Hnot. eapply SuspenseFacts.keys_delete. exact Hkey.
    + intros d Hin. cbn [generators] in Hin.
      cbn [emitted declared module_state].
      apply SuspenseFacts.in_update in Hin. destruct Hin as [->|Hin]; [|apply Honce; exact Hin].
      cbn [yielded owner position].
      split; [exact Hnd0|]. split; [exact Hstream0|]. split; [exact Hout0|]. discriminate.
Qed.

Lemma fold_once (events : list event) (s : process) :
  sound s -> targets_declared s -> numbered randomUUID s -> once s ->
  once (fold_left (step randomUUID) events s).
Proof.
  revert s. induction events as [|e events IH]; intros s Hs Ht Hn Ho; cbn [fold_left];
    [exact Ho|].
  apply IH.
  - apply SuspenseFacts.step_sound. exact Hs.
  - apply step_targets_declared; assumption.
  - apply step_numbered. exact Hn.
  - apply step_once; assumption.
Qed.

(** X24. One drain never patches the same entry twice, whatever is
    declared and whatever other drains do between its iterations, as long
    as UUIDs do not repeat: the ids a generator of [Resolve] has patched
    so far are distinct, each patch is in the stream of the response the
    generator belongs to, and each id was declared by some response and is
    no longer a key of the map. *)
Theorem drain_patches_each_entry_at_most_once
        (events : list event) (g : nat) (d : resolver) :
  let s := run randomUUID events in
  nth_error (generators s) g = Some d ->
  NoDup (map to (yielded d))
  /\ (forall p, In p (yielded d) -> In (owner d, p) (emitted s))
  /\ forall id, In id (map to (yielded d)) ->
                ~ In id (keys (suspended (module_state s)))
                /\ exists declarer, In (declarer, id) (declared s).
Proof.
  intros s Hg. subst s.
  assert (Honce : once (run randomUUID events)).
  { unfold run. apply fold_once.
    - split; [reflexivity|]. intros id [].
    - split; [intros r p []|]. intros d0 templateId p resumed id html [].
    - intros r id [].
    - intros d0 []. }
  destruct (Honce d (nth_error_In _ _ Hg)) as (Hnd & Hstream & Hout & _).
  split; [exact Hnd|]. split; [exact Hstream|exact Hout].
Qed.

End Unique.

Lemma fold_targets_declared (events : list event) (s : process) :
  sound s -> targets_declared s ->
  targets_declared (fold_left (step randomUUID) events s).
Proof.
  revert s. induction events as [|e events IH]; intros s Hs Ht; cbn [fold_left]; [exact Ht|].
  apply IH.
  - apply SuspenseFacts.step_sound. exact Hs.
  - apply step_targets_declared; assumption.
Qed.

Lemma drain_template_ids : forall fuel now lag w ps ending w',
  drain randomUUID fuel now lag w = Some (ps, ending, w') ->
  map from ps = map randomUUID (seq (drawn w) (List.length ps))
  /\ drawn w' = drawn w + List.length ps + match ending with Some _ => 1 | None => 0 end.
Proof.
  induction fuel as [|fuel IH]; intros now lag w ps ending w'; cbn [drain].
  - destruct (suspended w); [|discriminate].
    intros [= <- <- <-]. cbn. split; [reflexivity|lia].
  - destruct (suspended w) as [|entry m] eqn:Hm.
    + intros [= <- <- <-]. cbn. split; [reflexivity|lia].
    + cbn [suspended drawn].
      destruct (Promise_race now (values (entry :: m))) as [[p resumed]|]; [|discriminate].
      destruct (outcome p) as [[id element]|e].
      * destruct (drain randomUUID fuel (resumed + lag) lag _)
          as [[[ps' ending'] w'']|] eqn:Hd; [|discriminate].
        intros [= <- <- <-].
        destruct (IH _ _ _ _ _ _ Hd) as [Hfrom Hdrawn]. cbn [drawn] in *.
        cbn [map from List.length seq]. rewrite Hfrom, Hdrawn. split; [reflexivity|lia].
      * intros [= <- <- <-]. cbn. split; [reflexivity|lia].
Qed.

Lemma NoDup_map_injective {A B} (f : A -> B) (l : list A) :
  (forall x y, f x = f y -> x = y) -> NoDup l -> NoDup (map f l).
Proof.
  intros Hinj Hnd. induction Hnd as [|x l Hx _ IH]; cbn [map]; constructor; [|exact IH].
  rewrite in_map_iff. intros (y & Hy & Hin). apply Hinj in Hy. subst y. contradiction.
Qed.

(** X25. Every iteration of the drain loop draws one UUID, also the one
    that ends by throwing; the patches carry, in order, the UUIDs drawn by
    the iterations that emitted them. With UUIDs that never repeat no two
    templates of one drain share an id. *)
Theorem template_ids_are_fresh_draws
        (fuel now lag : nat) (w : world)
        (ps : list patch) (ending : option thrown) (w' : world) :
  drain randomUUID fuel now lag w = Some (ps, ending, w') ->
  map from ps = map randomUUID (seq (drawn w) (List.length ps))
  /\ drawn w' = drawn w + List.length ps + match ending with Some _ => 1 | None => 0 end
  /\ ((forall i j, randomUUID i = randomUUID j -> i = j) -> NoDup (map from ps)).
Proof.
  intros Hd. destruct (drain_template_ids _ _ _ _ _ _ _ Hd) as [Hfrom Hdrawn].
  split; [exact Hfrom|]. split; [exact Hdrawn|].
  intros Hinj. rewrite Hfrom. apply NoDup_map_injective; [exact Hinj|apply seq_NoDup].
Qed.








(** X27. Whatever the responses do, in whatever order: the keys of the
    map are distinct, every fulfilled promise carries the key it is stored
    under, every key in the map was declared by some response, and every
    patch emitted so far targets an id that some response declared. *)
Theorem registry_invariant (events : list event) :
  let s := run randomUUID events in
  NoDup (keys (suspended (module_state s)))
  /\ (forall k p id html, In (k, p) (suspended (module_state s)) ->
                          outcome p = Fulfilled (id, html) -> id = k)
  /\ (forall id, In id (keys (suspended (module_state s))) ->
                 exists declarer, In (declarer, id) (declared s))
  /\ (forall r p, In (r, p) (emitted s) ->
                  exists declarer, In (declarer, to p) (declared s)).
Proof.
  intros s. subst s.
  destruct (SuspenseFacts.run_sound randomUUID events) as [Hwk Hdecl].
  assert (Ht : targets_declared (run randomUUID events)).
  { unfold run. apply fold_targets_declared.
    - split; [reflexivity|]. intros id [].
    - split; [intros r p []|]. intros d templateId p resumed id html []. }
  apply SuspenseFacts.well_keyed_spec in Hwk. destruct Hwk as [Hnd Hown].
  destruct Ht as [Hem _]. auto.
Qed.

End Registry.

Lemma serial_injective (i j : nat) : Scenarios.serial i = Scenarios.serial j -> i = j.
Proof.
  unfold Scenarios.serial. cbn [String.append]. intros H. injection H as H.
  revert j H. induction i as [|i IH]; intros [|j]; cbn [Scenarios.tally String.append];
    intros H; try discriminate; [reflexivity|].
  injection H as H. f_equal. apply IH. exact H.
Qed.

Lemma drain_patches_each_entry_at_most_once_witness :
  let events := [RenderSuspense 1 0 (Scenarios.after 10 "<p>a</p>");
                 RenderSuspense 2 0 (Scenarios.after 20 "<p>b</p>");
                 RenderResolve 1; RenderResolve 2;
                 Pull 0 0; Pull 1 0; Settle 0; Settle 1;
                 Pull 0 15;
                 RenderSuspense 1 16 (Scenarios.after 30 "<p>c</p>");
                 Settle 0] in
  let s := run Scenarios.serial events in
  exists d,
    nth_error (generators s) 0 = Some d
    /\ map to (yielded d) = ["suspense-u"; "suspense-ui"]
    /\ map (fun e => (fst e, to (snd e))) (emitted s)
       = [(1, "suspense-u"); (2, "suspense-u"); (1, "suspense-ui")]
    /\ NoDup (map to (yielded d))
    /\ (forall p, In p (yielded d) -> In (owner d, p) (emitted s))
    /\ forall id, In id (map to (yielded d)) ->
                  ~ In id (keys (suspended (module_state s)))
                  /\ exists declarer, In (declarer, id) (declared s).
Proof.
  cbv zeta. eexists. split; [reflexivity|]. split; [reflexivity|]. split; [reflexivity|].
  apply (drain_patches_each_entry_at_most_once Scenarios.serial serial_injective
           [RenderSuspense 1 0 (Scenarios.after 10 "<p>a</p>");
            RenderSuspense 2 0 (Scenarios.after 20 "<p>b</p>");
            RenderResolve 1; RenderResolve 2;
            Pull 0 0; Pull 1 0; Settle 0; Settle 1;
            Pull 0 15;
            RenderSuspense 1 16 (Scenarios.after 30 "<p>c</p>");
            Settle 0] 0).
  reflexivity.
Defined.

Lemma template_ids_are_fresh_draws_witness :
  let w := Scenarios.three_subtrees in
  exists ps ending w',
    drain Scenarios.uuid 3 0 0 w = Some (ps, ending, w')
    /\ map from ps = ["d"; "e"; "f"]
    /\ map from ps = map Scenarios.uuid (seq (drawn w) (List.length ps))
    /\ drawn w' = drawn w + List.length ps + match ending with Some _ => 1 | None => 0 end.
Proof.
  cbv zeta. eexists. eexists. eexists. split; [reflexivity|]. split; [reflexivity|].
  pose proof (template_ids_are_fresh_draws Scenarios.uuid 3 0 0 Scenarios.three_subtrees
                _ _ _ eq_refl) as (Hfrom & Hdrawn & _).
  split; [exact Hfrom|exact Hdrawn].
Defined.

(** An [id] prop given to [<Suspense>] replaces the id of the element:
    the page shows the caller's id, the map and the patch have the drawn
    one, which no element of the page carries. *)
Example caller_id_replaces_the_drawn_id :
  let rendered :=
    Suspense Scenarios.uuid (fun s => [s]) 0 0 (Jsx.Shown "wait") None
             [("id", Jsx.PString "mine")] (Scenarios.after 10 "<p>done</p>")
             {| suspended := []; drawn := 0 |} in
  fst (fst (Jsx.processChild (fst rendered) []))
  = [("<div id=" ++ quote ++ "mine" ++ quote ++ " >")%string; "wait"; "</div>"]
  /\ keys (suspended (snd rendered)) = ["suspense-a"].
Proof. split; reflexivity. Qed.

(** Without an [id] prop the element carries the drawn id; a void [As]
    gets no closing tag. *)
Example fallback_element_without_id_prop :
  let rendered :=
    Suspense Scenarios.uuid (fun s => [s]) 0 0 Jsx.Nothing (Some "hr")
             [("class", Jsx.PString "line")] (Scenarios.after 10 "<p>done</p>")
             {| suspended := []; drawn := 0 |} in
  fst (fst (Jsx.processChild (fst rendered) []))
  = [("<hr id=" ++ quote ++ "suspense-a" ++ quote ++ "  class=" ++ quote ++ "line" ++ quote
      ++ " >")%string]
  /\ keys (suspended (snd rendered)) = ["suspense-a"].
Proof. split; reflexivity. Qed.

End SuspenseMore.
